(** * harvest: the feed package (src/feed/fetcher.go)

    A shallow embedding of the normalisation pipeline of the feed fetcher:
    field resolution ([getAuthor], [getDescription], [parseDate]), the content
    sanitizer ([cleanHTML] followed by [stripMarkdown]), the per-feed parser
    ([FetchFeed]) and the aggregator ([FetchAllFeeds]).

    Go strings are immutable byte sequences; they are modelled as [list ascii]
    and [len] is [length].  Functions of the Go standard library that the
    package calls are modelled next to the function that calls them, from
    their documented behaviour; [html.UnescapeString], [time.Parse], the clock
    and the network are parameters of the development. *)

From Stdlib Require Import Ascii String.
From Stdlib Require Import List ZArith NArith Lia Bool Arith.
From Stdlib Require Import Permutation Sorted.
Import ListNotations.

Local Open Scope list_scope.

(** ** Go strings *)

Definition gostring : Type := list ascii.

(** A string literal of the source. *)
Definition lit (s : string) : gostring := list_ascii_of_string s.

(** [s == ""] *)
Definition isEmpty (s : gostring) : bool :=
  match s with
  | [] => true
  | _ :: _ => false
  end.

(** [a == b] *)
Fixpoint eqs (a b : gostring) : bool :=
  match a, b with
  | [], [] => true
  | x :: a', y :: b' => Ascii.eqb x y && eqs a' b'
  | _, _ => false
  end.

(** The numeric value of a byte, and the byte of a value. *)
Definition code (c : ascii) : N := N_of_ascii c.

Definition byte (n : N) : ascii := ascii_of_N n.

(** [strings.HasPrefix(s, prefix)] *)
Fixpoint HasPrefix (s prefix : gostring) : bool :=
  match prefix, s with
  | [], _ => true
  | _ :: _, [] => false
  | p :: prefix', c :: s' => Ascii.eqb p c && HasPrefix s' prefix'
  end.

(** ** strings.ReplaceAll

    [ReplaceAll(s, old, new)] replaces the non-overlapping occurrences of
    [old] in [s], leftmost first.  [replaceFrom] walks [s] once; [skip] counts
    the bytes of a matched occurrence still to be dropped.  The package only
    passes one-byte patterns; the empty pattern (where Go inserts [new] around
    every rune) is outside this model and leaves [s] as it is. *)

Fixpoint replaceFrom (skip : nat) (s old new : gostring) : gostring :=
  match s with
  | [] => []
  | c :: s' =>
      match skip with
      | S k => replaceFrom k s' old new
      | O =>
          if HasPrefix s old
          then new ++ replaceFrom (length old - 1) s' old new
          else c :: replaceFrom 0 s' old new
      end
  end.

Definition ReplaceAll (s old new : gostring) : gostring :=
  if isEmpty old then s else replaceFrom 0 s old new.

(** ** stripMarkdown (fetcher.go, lines 32-39) *)

Definition invalidChars : list gostring :=
  [lit "*"; lit "_"; lit "#"; lit "`"; lit ">"; lit "<"; lit "["; lit "]";
   lit "("; lit ")"; lit "!"; lit "~"; lit "|"; lit "{"; lit "}"; lit "+"].

(** The [for _, char := range invalidChars] loop, [input] being reassigned at
    every turn. *)
Fixpoint stripMarkdown_loop (chars : list gostring) (input : gostring) : gostring :=
  match chars with
  | [] => input
  | char :: rest => stripMarkdown_loop rest (ReplaceAll input char [])
  end.

Definition stripMarkdown (input : gostring) : gostring :=
  stripMarkdown_loop invalidChars input.

(** ** The two regular expressions of cleanHTML

    [tagRegex = "<[^>]*>"].  A match starts at a '<' that has a '>' somewhere
    after it and runs to the first such '>' (the class [[^>]] also accepts
    '<', so a second '<' inside does not restart the match).  When no '>'
    follows, neither this '<' nor any later one starts a match.
    [tagRegex_walk inTag] is [ReplaceAllString] reading left to right, for a
    replacement that holds no '$' (the package passes the empty string). *)

Definition isGT (c : ascii) : bool := Ascii.eqb c ">"%char.
Definition isLT (c : ascii) : bool := Ascii.eqb c "<"%char.

Fixpoint tagRegex_walk (inTag : bool) (src repl : gostring) : gostring :=
  match src with
  | [] => []
  | c :: rest =>
      if inTag then
        if isGT c then repl ++ tagRegex_walk false rest repl
        else tagRegex_walk true rest repl
      else if isLT c && existsb isGT rest then tagRegex_walk true rest repl
      else c :: tagRegex_walk false rest repl
  end.

Definition tagRegex_ReplaceAllString (src repl : gostring) : gostring :=
  tagRegex_walk false src repl.

(** [wsRegex = `\s+`]; in Go's regexp syntax [\s] is [[\t\n\f\r ]] (the
    vertical tab is not in it).  Every maximal run is one match. *)

Definition isReSpace (c : ascii) : bool :=
  let n := code c in
  (N.eqb n 9 || N.eqb n 10 || N.eqb n 12 || N.eqb n 13 || N.eqb n 32)%N%bool.

Fixpoint wsRegex_walk (inRun : bool) (src repl : gostring) : gostring :=
  match src with
  | [] => []
  | c :: rest =>
      if isReSpace c then
        if inRun then wsRegex_walk true rest repl
        else repl ++ wsRegex_walk true rest repl
      else c :: wsRegex_walk false rest repl
  end.

Definition wsRegex_ReplaceAllString (src repl : gostring) : gostring :=
  wsRegex_walk false src repl.

(** ** strings.TrimSpace

    TrimSpace drops leading and trailing white space as Unicode defines it
    ([unicode.IsSpace]): the six ASCII characters tab, line feed, vertical
    tab, form feed, carriage return and space, U+0085, U+00A0, U+1680,
    U+2000..U+200A, U+2028, U+2029, U+202F, U+205F and U+3000.  On a Go
    string these are the byte sequences of [spaceRunes] (their UTF-8
    encodings); a byte that does not start one of them is not white space. *)

Definition bytesOf (l : list N) : gostring := map byte l.

Definition spaceRunes : list gostring :=
  [ bytesOf [9]%N; bytesOf [10]%N; bytesOf [11]%N; bytesOf [12]%N; bytesOf [13]%N; bytesOf [32]%N;
    bytesOf [194; 133]%N; bytesOf [194; 160]%N;
    bytesOf [225; 154; 128]%N;
    bytesOf [226; 128; 128]%N; bytesOf [226; 128; 129]%N; bytesOf [226; 128; 130]%N;
    bytesOf [226; 128; 131]%N; bytesOf [226; 128; 132]%N; bytesOf [226; 128; 133]%N;
    bytesOf [226; 128; 134]%N; bytesOf [226; 128; 135]%N; bytesOf [226; 128; 136]%N;
    bytesOf [226; 128; 137]%N; bytesOf [226; 128; 138]%N;
    bytesOf [226; 128; 168]%N; bytesOf [226; 128; 169]%N; bytesOf [226; 128; 175]%N;
    bytesOf [226; 129; 159]%N;
    bytesOf [227; 128; 128]%N ].

(** Width in bytes of the first pattern of [pats] that [s] starts with, 0
    when there is none. *)
Fixpoint matchWidth (pats : list gostring) (s : gostring) : nat :=
  match pats with
  | [] => 0
  | p :: pats' => if HasPrefix s p then length p else matchWidth pats' s
  end.

(** Drop patterns from the front while one matches; every round drops at
    least one byte, so [length s] rounds are enough. *)
Fixpoint dropWhileMatch (fuel : nat) (pats : list gostring) (s : gostring) : gostring :=
  match fuel with
  | O => s
  | S fuel' =>
      match matchWidth pats s with
      | O => s
      | S w => dropWhileMatch fuel' pats (skipn (S w) s)
      end
  end.

Definition TrimLeftSpace (s : gostring) : gostring :=
  dropWhileMatch (length s) spaceRunes s.

(** From the right Go decodes the last rune of the string; the string ends
    in white space exactly when it ends with one of the encodings. *)
Definition TrimRightSpace (s : gostring) : gostring :=
  rev (dropWhileMatch (length s) (map (@rev ascii) spaceRunes) (rev s)).

Definition TrimSpace (s : gostring) : gostring :=
  TrimRightSpace (TrimLeftSpace s).

Definition hasSpacePrefix (s : gostring) : bool :=
  negb (Nat.eqb (matchWidth spaceRunes s) 0).

Definition hasSpaceSuffix (s : gostring) : bool :=
  negb (Nat.eqb (matchWidth (map (@rev ascii) spaceRunes) (rev s)) 0).

(** ** html.UnescapeString

    The entity decoder of Go's [html] package (a table of some two thousand
    named entities) is a parameter.  What the development uses of it is the
    function's first test: a string without '&' is returned as it is. *)

Definition isAmp (c : ascii) : bool := Ascii.eqb c "&"%char.

Class Html : Type := {
  UnescapeString : gostring -> gostring;
  UnescapeString_no_amp :
    forall s, existsb isAmp s = false -> UnescapeString s = s
}.

(** ** cleanHTML (fetcher.go, lines 41-65)

    [None] is a run-time panic: [cleaned[:maxLength]] with a negative bound,
    or the index [cleaned[len(cleaned)-1]] into an empty slice. *)

(** [s[len(s)-1]] *)
Definition lastByte (s : gostring) : option ascii :=
  match rev s with
  | [] => None
  | c :: _ => Some c
  end.

Definition isSpaceByte (c : ascii) : bool := Ascii.eqb c " "%char.
Definition isDot (c : ascii) : bool := Ascii.eqb c "."%char.

Definition cleanHTML `{Html} (input : gostring) (maxLength : Z) : option gostring :=
  (* first, remove HTML tags *)
  let cleaned := tagRegex_ReplaceAllString input [] in
  (* & convert HTML entities *)
  let cleaned := UnescapeString cleaned in
  (* & normalize whitespace *)
  let cleaned := wsRegex_ReplaceAllString cleaned (lit " ") in
  (* & truncate to maxLength *)
  if (Z.of_nat (length cleaned) >? maxLength)%Z then
    if (maxLength <? 0)%Z then None
    else
      let cleaned := firstn (Z.to_nat maxLength) cleaned in
      match lastByte cleaned with
      | None => None
      | Some c =>
          let cleaned :=
            if isSpaceByte c || isDot c then removelast cleaned else cleaned in
          let cleaned := cleaned ++ lit "..." in
          Some (TrimSpace cleaned)
      end
  else Some (TrimSpace cleaned).

(** ** The data model

    The struct types [Item], [Channel], [Feed] and [BlogPost] are declared
    in another file of the package.  Their fields below are the ones
    fetcher.go selects: strings, but for the post's date and the item
    sequences. *)

Module Item.
(** Modelled from the spec: the Raw Item, "a flat record holding all
    possible field variants coexisting"; its declaration is not in
    fetcher.go.  An unpopulated field is the empty string. *)
Record t : Type := mk {
  Title : gostring;
  Link : gostring;
  PubDate : gostring;
  Date : gostring;
  Published : gostring;
  Updated : gostring;
  Description : gostring;
  Summary : gostring;
  Content : gostring;
  Encoded : gostring;
  Author : gostring;
  Creator : gostring
}.
End Item.

Module Channel.
(** Modelled from the spec: the channel object nested in the Raw Feed Tree,
    with its title and its items under the RSS-style and the Atom-style
    name; its declaration is not in fetcher.go. *)
Record t : Type := mk {
  Title : gostring;
  Items : list Item.t;
  Entries : list Item.t
}.
End Channel.

Module Feed.
(** Modelled from the spec: the root of the Raw Feed Tree, which holds the
    channel and the bare entries; its declaration is not in fetcher.go. *)
Record t : Type := mk {
  Channel : Channel.t;
  Entries : list Item.t
}.
End Feed.

(** ** time.Time

    A time holds a wall-clock instant (seconds since the Unix epoch and
    nanoseconds within the second) and, when it is a reading of
    [time.Now], the reading of the monotonic clock taken with it; a time
    that [time.Parse] returns has none.  The location Go also stores is
    looked at by no comparison.

    [After] is [t.After(u)]: when both times carry a monotonic reading the
    readings are compared, otherwise the wall-clock instants.
    [wallAfter] compares the instants in every case. *)

Record Time : Type := mkTime {
  unixSec : Z;
  nsec : Z;
  mono : option Z
}.

Definition wallAfter (t u : Time) : bool :=
  ((unixSec t >? unixSec u) || ((unixSec t =? unixSec u) && (nsec t >? nsec u)))%Z.

Definition After (t u : Time) : bool :=
  match mono t, mono u with
  | Some tm, Some um => (tm >? um)%Z
  | _, _ => wallAfter t u
  end.

Module BlogPost.
(** Modelled from the spec: the Normalized Post (title, link, date, author,
    summary); its declaration is not in fetcher.go. *)
Record t : Type := mk {
  Title : gostring;
  Link : gostring;
  Date : Time;
  Author : gostring;
  Summary : gostring
}.
End BlogPost.

(** ** getDescription (fetcher.go, lines 91-106) and getAuthor (108-116) *)

Fixpoint getDescription_loop `{Html} (candidates : list gostring) : option gostring :=
  match candidates with
  | [] => Some (lit "Visit post for details.")
  | candidate :: rest =>
      if negb (isEmpty candidate)
      then option_map stripMarkdown (cleanHTML candidate 200)
      else getDescription_loop rest
  end.

Definition getDescription `{Html} (item : Item.t) : option gostring :=
  let candidates :=
    [Item.Description item; Item.Summary item; Item.Content item; Item.Encoded item] in
  getDescription_loop candidates.

Definition getAuthor (item : Item.t) (channelTitle : gostring) : gostring :=
  if negb (isEmpty (Item.Author item)) then Item.Author item
  else if negb (isEmpty (Item.Creator item)) then Item.Creator item
  else channelTitle.

(** ** The world: clock and log

    [time.Now] and [log.Printf] are the package's effects besides the
    network.  A computation threads the number of clock readings taken so
    far and the lines written to the log; [None] is a panic. *)

Record World : Type := mkWorld {
  reads : nat;
  logs : list gostring
}.

Definition M (A : Type) : Type := World -> option (A * World).

Definition ret {A : Type} (a : A) : M A := fun w => Some (a, w).

Definition bind {A B : Type} (m : M A) (k : A -> M B) : M B :=
  fun w =>
    match m w with
    | None => None
    | Some (a, w') => k a w'
    end.

Definition panic {A : Type} : M A := fun _ => None.

Definition liftOption {A : Type} (o : option A) : M A :=
  match o with
  | Some a => ret a
  | None => panic
  end.

Declare Scope go_scope.
Delimit Scope go_scope with go.
Notation "x <- m ;; k" := (bind m (fun x => k))
  (at level 61, m at next level, right associativity) : go_scope.
Notation "m ;;; k" := (bind m (fun _ => k))
  (at level 61, right associativity) : go_scope.
Local Open Scope go_scope.

Definition log_Printf (line : gostring) : M unit :=
  fun w => Some (tt, {| reads := reads w; logs := logs w ++ [line] |}).

(** ** The time package: layouts and the clock

    [time_Parse layout value] is [Some t] when [time.Parse] returns a nil
    error, and such a [t] carries no monotonic reading; [clock n] is what
    the [n]-th call of [time.Now] returns. *)

Class TimePkg : Type := {
  time_Parse : gostring -> gostring -> option Time;
  clock : nat -> Time;
  time_Parse_wall :
    forall layout value t, time_Parse layout value = Some t -> mono t = None
}.

Definition time_Now `{TimePkg} : M Time :=
  fun w => Some (clock (reads w), {| reads := S (reads w); logs := logs w |}).

(** [time.RFC1123Z], [time.RFC1123], [time.RFC3339] and [time.RFC3339Nano]
    are written out. *)
Definition dateFormats : list gostring :=
  [ lit "Mon, 02 Jan 2006 15:04:05 -0700";
    lit "Mon, 02 Jan 2006 15:04:05 MST";
    lit "2006-01-02T15:04:05Z07:00";
    lit "2006-01-02T15:04:05.999999999Z07:00";
    lit "2006-01-02T15:04:05Z";
    lit "2006-01-02 15:04:05 -0700";
    lit "02 Jan 2006 15:04 -0700";
    lit "Mon, 02 Jan 2006 15:04:05 GMT";
    lit "02 Jan 2006 15:04 +0000";
    lit "2006-01-02";
    lit "January 2, 2006" ].

(** ** parseDate (fetcher.go, lines 67-89)

    The inner loop returns at the first layout that parses; when it runs
    out of layouts the outer loop goes on with the next candidate. *)

Fixpoint parseDate_formats `{TimePkg} (formats : list gostring) (dateStr : gostring)
  : option Time :=
  match formats with
  | [] => None
  | format :: rest =>
      match time_Parse format dateStr with
      | Some t => Some t
      | None => parseDate_formats rest dateStr
      end
  end.

Fixpoint parseDate_candidates `{TimePkg} (dateCandidates : list gostring) : option Time :=
  match dateCandidates with
  | [] => None
  | dateStr :: rest =>
      if isEmpty dateStr then parseDate_candidates rest
      else
        match parseDate_formats dateFormats dateStr with
        | Some t => Some t
        | None => parseDate_candidates rest
        end
  end.

Definition warnNoDate (item : Item.t) : gostring :=
  lit "warn: Could not parse any date from item " ++ Item.Title item.

Definition parseDate `{TimePkg} (item : Item.t) : M Time :=
  let dateCandidates :=
    [Item.PubDate item; Item.Date item; Item.Published item; Item.Updated item] in
  match parseDate_candidates dateCandidates with
  | Some t => ret t
  | None => log_Printf (warnNoDate item) ;;; time_Now
  end.

(** ** The network and the XML decoder

    [http.Get], [io.ReadAll] and [xml.Unmarshal] into a [Feed] are
    parameters; each either yields a value or an error, whose message is
    what [%w] and [%v] print. *)

Inductive result (A : Type) : Type :=
| Ok (a : A)
| Err (err : gostring).
Arguments Ok {A} a.
Arguments Err {A} err.

Class Network : Type := {
  Response : Type;
  http_Get : gostring -> result Response;
  io_ReadAll : Response -> result gostring;
  xml_Unmarshal : gostring -> result Feed.t
}.

(** ** FetchFeed (fetcher.go, lines 118-158) *)

(** The composite literal of the loop body; Go evaluates its fields in
    order: [parseDate] (which may log and read the clock), [getAuthor],
    [getDescription]. *)
Definition FetchFeed_post `{Html} `{TimePkg} (item : Item.t) (channelTitle : gostring)
  : M BlogPost.t :=
  date <- parseDate item ;;
  let author := getAuthor item channelTitle in
  summary <- liftOption (getDescription item) ;;
  ret {| BlogPost.Title := Item.Title item;
         BlogPost.Link := Item.Link item;
         BlogPost.Date := date;
         BlogPost.Author := author;
         BlogPost.Summary := summary |}.

(** [for _, item := range items { ...; posts = append(posts, post) }] *)
Fixpoint FetchFeed_loop `{Html} `{TimePkg} (items : list Item.t) (channelTitle : gostring)
  (posts : list BlogPost.t) : M (list BlogPost.t) :=
  match items with
  | [] => ret posts
  | item :: rest =>
      post <- FetchFeed_post item channelTitle ;;
      FetchFeed_loop rest channelTitle (posts ++ [post])
  end.

Definition FetchFeed `{Html} `{TimePkg} `{Network} (url : gostring)
  : M (result (list BlogPost.t)) :=
  match http_Get url with
  | Err err => ret (Err (lit "fetching feed " ++ url ++ lit ": " ++ err))
  | Ok resp =>
      match io_ReadAll resp with
      | Err err => ret (Err (lit "reading res from " ++ url ++ lit ": " ++ err))
      | Ok body =>
          match xml_Unmarshal body with
          | Err err => ret (Err (lit "parsing feed " ++ url ++ lit ": " ++ err))
          | Ok feed =>
              (* we need to worry about both RSS *AND* Atom feeds *)
              let items := Channel.Items (Feed.Channel feed) in
              let items :=
                if Nat.eqb (length items) 0
                then Channel.Entries (Feed.Channel feed) else items in
              let items :=
                if Nat.eqb (length items) 0 then Feed.Entries feed else items in
              posts <- FetchFeed_loop items (Channel.Title (Feed.Channel feed)) [] ;;
              ret (Ok posts)
          end
      end
  end.

(** ** sort.Slice

    [sort.Slice] sorts in place under the given [less] and promises no
    stability.  On slices of up to 12 elements the library (Go 1.19 and
    later) runs the insertion sort below; on longer ones a quicksort
    variant that yields, like it, a permutation in which no element is
    less than one before it.  The model is that insertion sort at every
    length; among elements that compare as equal its order may differ from
    the library's on longer slices.  [sink less x sorted] is the inner loop
    [for j := i; j > a && less(j, j-1); j-- { swap(j, j-1) }], with the
    sorted range held last element first. *)

Fixpoint sink {A : Type} (less : A -> A -> bool) (x : A) (sorted : list A) : list A :=
  match sorted with
  | [] => [x]
  | y :: sorted' => if less x y then y :: sink less x sorted' else x :: sorted
  end.

Fixpoint insertionSort {A : Type} (less : A -> A -> bool) (sorted rest : list A) : list A :=
  match rest with
  | [] => rev sorted
  | x :: rest' => insertionSort less (sink less x sorted) rest'
  end.

Definition sort_Slice {A : Type} (data : list A) (less : A -> A -> bool) : list A :=
  insertionSort less [] data.

(** ** FetchAllFeeds (fetcher.go, lines 160-191)

    One goroutine per URL; each appends its whole batch under the mutex, so
    the collected sequence is the concatenation of the successful batches
    in the order the goroutines come to the append.  [FetchAllFeeds_task] is
    the goroutine's body and [FetchAllFeeds_run order] runs the tasks one
    after the other in a given order of completion; [wg.Wait] is the end of
    that run, after which the slice is sorted. *)

Definition FetchAllFeeds_task `{Html} `{TimePkg} `{Network} (url : gostring)
  (posts : list BlogPost.t) : M (list BlogPost.t) :=
  r <- FetchFeed url ;;
  match r with
  | Err err => log_Printf (lit "err fetching " ++ url ++ lit ": " ++ err) ;;; ret posts
  | Ok feedPosts => ret (posts ++ feedPosts)
  end.

Fixpoint FetchAllFeeds_run `{Html} `{TimePkg} `{Network} (order : list gostring)
  (posts : list BlogPost.t) : M (list BlogPost.t) :=
  match order with
  | [] => ret posts
  | url :: rest =>
      posts' <- FetchAllFeeds_task url posts ;;
      FetchAllFeeds_run rest posts'
  end.

Definition byDateDesc (a b : BlogPost.t) : bool :=
  After (BlogPost.Date a) (BlogPost.Date b).

Definition FetchAllFeeds_in `{Html} `{TimePkg} `{Network} (order : list gostring)
  : M (list BlogPost.t) :=
  posts <- FetchAllFeeds_run order [] ;;
  ret (sort_Slice posts byDateDesc).

(** The aggregator proper: any order of completion of the tasks may occur. *)
Definition FetchAllFeeds `{Html} `{TimePkg} `{Network} (feeds : list gostring)
  (w : World) (out : list BlogPost.t) : Prop :=
  exists order w',
    Permutation feeds order /\ FetchAllFeeds_in order w = Some (out, w').

(** ** A model of time.Parse

    [time.Parse] belongs to the Go standard library.  The general results
    below hold for every [TimePkg]; to evaluate the package on concrete feeds
    this section models [time.Parse] for the layout elements that occur in
    [dateFormats] (other elements of Go's layout language are not modelled),
    following the library function step by step: [nextStdChunk] cuts the
    layout, [skip] matches literal text, [getnum], [lookup] and
    [parseTimeZone] read the fields, and the day of the month is validated
    at the end.  The process's local time zone is taken to be UTC, so a zone
    abbreviation other than UTC has no known offset and, as in Go, counts
    as offset zero. *)

Module GoTime.

Local Open Scope Z_scope.

Inductive std : Type :=
| stdLongMonth | stdMonth | stdZeroMonth
| stdWeekDay | stdDay | stdZeroDay
| stdHour | stdZeroMinute | stdZeroSecond
| stdLongYear | stdTZ | stdISO8601ColonTZ | stdNumTZ
| stdFracSecond9.

Definition between (lo hi : N) (c : ascii) : bool :=
  (N.leb lo (code c) && N.leb (code c) hi)%bool.

Definition isDigitByte (c : ascii) : bool := between 48 57 c.
Definition isLower (c : ascii) : bool := between 97 122 c.
Definition isUpper (c : ascii) : bool := between 65 90 c.

(** [isDigit(s, i)] *)
Definition isDigit (s : gostring) (i : nat) : bool :=
  match nth_error s i with
  | Some c => isDigitByte c
  | None => false
  end.

Definition startsWithLowerCase (s : gostring) : bool :=
  match s with
  | [] => false
  | c :: _ => isLower c
  end.

Definition digitVal (c : ascii) : Z := Z.of_N (code c) - 48.

(** Fractional seconds in a layout: '.' or ',' and a run of nines that no
    further digit follows. *)
Fixpoint dropNines (s : gostring) : gostring :=
  match s with
  | c :: s' => if Ascii.eqb c "9"%char then dropNines s' else s
  | [] => []
  end.

Definition commaOrPeriod (c : ascii) : bool :=
  (Ascii.eqb c "."%char || Ascii.eqb c ","%char)%bool.

(** The layout element that starts at the head of [layout], with the rest
    of the layout. *)
Definition chunkAt (layout : gostring) : option (std * gostring) :=
  if HasPrefix layout (lit "January") then Some (stdLongMonth, skipn 7 layout)
  else if HasPrefix layout (lit "Jan") && negb (startsWithLowerCase (skipn 3 layout))
  then Some (stdMonth, skipn 3 layout)
  else if HasPrefix layout (lit "Mon") && negb (startsWithLowerCase (skipn 3 layout))
  then Some (stdWeekDay, skipn 3 layout)
  else if HasPrefix layout (lit "MST") then Some (stdTZ, skipn 3 layout)
  else if HasPrefix layout (lit "01") then Some (stdZeroMonth, skipn 2 layout)
  else if HasPrefix layout (lit "02") then Some (stdZeroDay, skipn 2 layout)
  else if HasPrefix layout (lit "04") then Some (stdZeroMinute, skipn 2 layout)
  else if HasPrefix layout (lit "05") then Some (stdZeroSecond, skipn 2 layout)
  else if HasPrefix layout (lit "15") then Some (stdHour, skipn 2 layout)
  else if HasPrefix layout (lit "2006") then Some (stdLongYear, skipn 4 layout)
  else if HasPrefix layout (lit "2") then Some (stdDay, skipn 1 layout)
  else if HasPrefix layout (lit "-0700") then Some (stdNumTZ, skipn 5 layout)
  else if HasPrefix layout (lit "Z07:00") then Some (stdISO8601ColonTZ, skipn 6 layout)
  else
    match layout with
    | c :: (d :: _) as tl =>
        if commaOrPeriod c && Ascii.eqb d "9"%char && negb (isDigit (dropNines tl) 0)
        then Some (stdFracSecond9, dropNines tl)
        else None
    | _ => None
    end.

Fixpoint nextStdChunk (layout : gostring) : gostring * option std * gostring :=
  match layout with
  | [] => ([], None, [])
  | c :: rest =>
      match chunkAt layout with
      | Some (s, suffix) => ([], Some s, suffix)
      | None =>
          let '(prefix, s, suffix) := nextStdChunk rest in
          (c :: prefix, s, suffix)
      end
  end.

Fixpoint cutspace (s : gostring) : gostring :=
  match s with
  | c :: s' => if isSpaceByte c then cutspace s' else s
  | [] => []
  end.

(** [skip(value, prefix)]: a run of spaces of the layout stands for any
    number of spaces of the value (the value must not continue with another
    byte there), every other byte for itself.  [inSpaces] holds while the
    run of spaces of the layout goes on. *)
Fixpoint skipFrom (inSpaces : bool) (value prefix : gostring) : option gostring :=
  match prefix with
  | [] => Some value
  | p :: prefix' =>
      if isSpaceByte p then
        if inSpaces then skipFrom true value prefix'
        else
          match value with
          | v :: _ => if isSpaceByte v then skipFrom true (cutspace value) prefix' else None
          | [] => skipFrom true [] prefix'
          end
      else
        match value with
        | v :: value' => if Ascii.eqb v p then skipFrom false value' prefix' else None
        | [] => None
        end
  end.

Definition skip (value prefix : gostring) : option gostring :=
  skipFrom false value prefix.

Definition getnum (s : gostring) (fixed : bool) : option (Z * gostring) :=
  match s with
  | a :: rest =>
      if isDigitByte a then
        match rest with
        | b :: rest' =>
            if isDigitByte b then Some (digitVal a * 10 + digitVal b, rest')
            else if fixed then None else Some (digitVal a, rest)
        | [] => if fixed then None else Some (digitVal a, rest)
        end
      else None
  | [] => None
  end.

(** [match(s1, s2)]: equal up to the case of ASCII letters. *)
Definition lowered (c : ascii) : N := N.lor (code c) 32.

Definition matchByte (c1 c2 : ascii) : bool :=
  (Ascii.eqb c1 c2
   || (N.eqb (lowered c1) (lowered c2)
       && N.leb 97 (lowered c1) && N.leb (lowered c1) 122))%bool.

Fixpoint matchFold (val name : gostring) : bool :=
  match name, val with
  | [], _ => true
  | _ :: _, [] => false
  | n :: name', v :: val' => (matchByte v n && matchFold val' name')%bool
  end.

Fixpoint lookup (tab : list gostring) (i : Z) (val : gostring) : option (Z * gostring) :=
  match tab with
  | [] => None
  | v :: tab' =>
      if matchFold val v then Some (i, skipn (length v) val)
      else lookup tab' (i + 1) val
  end.

Definition shortDayNames : list gostring :=
  map lit ["Sun"; "Mon"; "Tue"; "Wed"; "Thu"; "Fri"; "Sat"]%string.

Definition shortMonthNames : list gostring :=
  map lit ["Jan"; "Feb"; "Mar"; "Apr"; "May"; "Jun";
           "Jul"; "Aug"; "Sep"; "Oct"; "Nov"; "Dec"]%string.

Definition longMonthNames : list gostring :=
  map lit ["January"; "February"; "March"; "April"; "May"; "June"; "July";
           "August"; "September"; "October"; "November"; "December"]%string.

(** [atoi] on a string of decimal digits. *)
Fixpoint digitsAcc (acc : Z) (s : gostring) : option Z :=
  match s with
  | [] => Some acc
  | c :: s' => if isDigitByte c then digitsAcc (acc * 10 + digitVal c) s' else None
  end.

Definition atoi (s : gostring) : option Z := digitsAcc 0 s.

Fixpoint takeDigits (s : gostring) : gostring :=
  match s with
  | c :: s' => if isDigitByte c then c :: takeDigits s' else []
  | [] => []
  end.

(** [parseNanoseconds(value, nbytes)] where [value] starts with the
    separator and [digits] are the [nbytes-1] digits after it: at most nine
    digits count, scaled to nanoseconds. *)
Definition parseNanoseconds (digits : gostring) : option Z :=
  let kept := firstn 9 digits in
  match atoi kept with
  | Some ns => Some (ns * 10 ^ (9 - Z.of_nat (length kept)))
  | None => None
  end.

(** [parseSignedOffset]: length of a sign and an hour of at most 23,
    0 when there is none. *)
Definition parseSignedOffset (value : gostring) : nat :=
  match value with
  | sign :: rest =>
      if (Ascii.eqb sign "-"%char || Ascii.eqb sign "+"%char)%bool then
        match takeDigits rest with
        | [] => O
        | ds =>
            match atoi ds with
            | Some x => if x >? 23 then O else S (length ds)
            | None => O
            end
        end
      else O
  | [] => O
  end.

Fixpoint countUpper (n : nat) (s : gostring) : nat :=
  match n, s with
  | S n', c :: s' => if isUpper c then S (countUpper n' s') else O
  | _, _ => O
  end.

(** [parseTimeZone(value)]: the length of the zone abbreviation at the head
    of [value]. *)
Definition parseTimeZone (value : gostring) : option nat :=
  if (length value <? 3)%nat then None
  else if HasPrefix value (lit "ChST") || HasPrefix value (lit "MeST") then Some 4%nat
  else if HasPrefix value (lit "GMT") then
    Some (3 + match skipn 3 value with
              | [] => 0
              | rest => parseSignedOffset rest
              end)%nat
  else if HasPrefix value (lit "+") || HasPrefix value (lit "-") then
    match parseSignedOffset value with
    | O => None
    | n => Some n
    end
  else
    match countUpper 6 value with
    | 5%nat =>
        if HasPrefix (skipn 4 value) (lit "T") then Some 5%nat else None
    | 4%nat =>
        if HasPrefix (skipn 3 value) (lit "T") || HasPrefix value (lit "WITA")
        then Some 4%nat else None
    | 3%nat => Some 3%nat
    | _ => None
    end.

(** The time being constructed. *)
Record fields : Type := mkFields {
  year : Z; month : Z; day : Z;
  hour : Z; min : Z; sec : Z; nanos : Z;
  zoneOffset : Z
}.

Definition noFields : fields := mkFields 0 (-1) (-1) 0 0 0 0 0.

(** A numeric zone [sign hh mm]: offset in seconds east of UTC. *)
Definition numericZone (sign : ascii) (hh mm : gostring) : option Z :=
  match getnum hh true, getnum mm true with
  | Some (hr, _), Some (mi, _) =>
      if (hr >? 24) || (mi >? 60) then None
      else if Ascii.eqb sign "+"%char then Some ((hr * 60 + mi) * 60)
      else if Ascii.eqb sign "-"%char then Some (- ((hr * 60 + mi) * 60))
      else None
  | _, _ => None
  end.

(** One turn of the loop of [parse]: read the field [s] off [value];
    [layout] is what remains of the layout after [s]. *)
Definition parseField (s : std) (layout value : gostring) (f : fields)
  : option (gostring * fields) :=
  match s with
  | stdLongYear =>
      if (length value <? 4)%nat then None
      else
        match atoi (firstn 4 value) with
        | Some y => Some (skipn 4 value,
                          mkFields y (month f) (day f) (hour f) (min f) (sec f) (nanos f) (zoneOffset f))
        | None => None
        end
  | stdMonth | stdLongMonth =>
      match lookup (match s with stdMonth => shortMonthNames | _ => longMonthNames end) 0 value with
      | Some (m, value') =>
          Some (value', mkFields (year f) (m + 1) (day f) (hour f) (min f) (sec f) (nanos f) (zoneOffset f))
      | None => None
      end
  | stdZeroMonth =>
      match getnum value true with
      | Some (m, value') =>
          if (m <=? 0) || (12 <? m) then None
          else Some (value', mkFields (year f) m (day f) (hour f) (min f) (sec f) (nanos f) (zoneOffset f))
      | None => None
      end
  | stdWeekDay =>
      match lookup shortDayNames 0 value with
      | Some (_, value') => Some (value', f)
      | None => None
      end
  | stdDay | stdZeroDay =>
      match getnum value (match s with stdZeroDay => true | _ => false end) with
      | Some (d, value') =>
          Some (value', mkFields (year f) (month f) d (hour f) (min f) (sec f) (nanos f) (zoneOffset f))
      | None => None
      end
  | stdHour =>
      match getnum value false with
      | Some (h, value') =>
          if 24 <=? h then None
          else Some (value', mkFields (year f) (month f) (day f) h (min f) (sec f) (nanos f) (zoneOffset f))
      | None => None
      end
  | stdZeroMinute =>
      match getnum value true with
      | Some (m, value') =>
          if 60 <=? m then None
          else Some (value', mkFields (year f) (month f) (day f) (hour f) m (sec f) (nanos f) (zoneOffset f))
      | None => None
      end
  | stdZeroSecond =>
      match getnum value true with
      | Some (sc, value') =>
          if 60 <=? sc then None
          else
            let f' := mkFields (year f) (month f) (day f) (hour f) (min f) sc (nanos f) (zoneOffset f) in
            match value' with
            | c :: ds =>
                if commaOrPeriod c && isDigit ds 0 then
                  match nextStdChunk layout with
                  | (_, Some stdFracSecond9, _) => Some (value', f')
                  | _ =>
                      match parseNanoseconds (takeDigits ds) with
                      | Some ns =>
                          Some (skipn (length (takeDigits ds)) ds,
                                mkFields (year f) (month f) (day f) (hour f) (min f) sc ns (zoneOffset f))
                      | None => None
                      end
                  end
                else Some (value', f')
            | [] => Some (value', f')
            end
      | None => None
      end
  | stdFracSecond9 =>
      match value with
      | c :: ds =>
          if commaOrPeriod c && isDigit ds 0 then
            match parseNanoseconds (takeDigits ds) with
            | Some ns =>
                Some (skipn (length (takeDigits ds)) ds,
                      mkFields (year f) (month f) (day f) (hour f) (min f) (sec f) ns (zoneOffset f))
            | None => None
            end
          else Some (value, f)
      | [] => Some (value, f)
      end
  | stdISO8601ColonTZ =>
      if HasPrefix value (lit "Z") then Some (skipn 1 value, f)
      else if (length value <? 6)%nat then None
      else
        match value with
        | sign :: h1 :: h2 :: colon :: m1 :: m2 :: value' =>
            if Ascii.eqb colon ":"%char then
              match numericZone sign [h1; h2] [m1; m2] with
              | Some off =>
                  Some (value', mkFields (year f) (month f) (day f) (hour f) (min f) (sec f) (nanos f) off)
              | None => None
              end
            else None
        | _ => None
        end
  | stdNumTZ =>
      match value with
      | sign :: h1 :: h2 :: m1 :: m2 :: value' =>
          match numericZone sign [h1; h2] [m1; m2] with
          | Some off =>
              Some (value', mkFields (year f) (month f) (day f) (hour f) (min f) (sec f) (nanos f) off)
          | None => None
          end
      | _ => None
      end
  | stdTZ =>
      if HasPrefix value (lit "UTC") then Some (skipn 3 value, f)
      else
        match parseTimeZone value with
        | Some n => Some (skipn n value, f)
        | None => None
        end
  end.

(** The loop of [parse]; each turn consumes one element of the layout. *)
Fixpoint parseLoop (fuel : nat) (layout value : gostring) (f : fields) : option fields :=
  match fuel with
  | O => None
  | S fuel' =>
      let '(prefix, s, suffix) := nextStdChunk layout in
      match skip value prefix with
      | None => None
      | Some value' =>
          match s with
          | None => if isEmpty value' then Some f else None
          | Some s =>
              match parseField s suffix value' f with
              | Some (value'', f') => parseLoop fuel' suffix value'' f'
              | None => None
              end
          end
      end
  end.

Definition isLeap (y : Z) : bool :=
  (y mod 4 =? 0) && (negb (y mod 100 =? 0) || (y mod 400 =? 0)).

Definition daysIn (m y : Z) : Z :=
  if m =? 2 then (if isLeap y then 29 else 28)
  else if (m =? 4) || (m =? 6) || (m =? 9) || (m =? 11) then 30
  else 31.

(** Days from 1970-01-01 to the given civil date. *)
Definition daysFromCivil (y m d : Z) : Z :=
  let y' := if m <=? 2 then y - 1 else y in
  let era := y' / 400 in
  let yoe := y' - era * 400 in
  let doy := (153 * (if m >? 2 then m - 3 else m + 9) + 2) / 5 + d - 1 in
  let doe := yoe * 365 + yoe / 4 - yoe / 100 + doy in
  era * 146097 + doe - 719468.

Definition Parse (layout value : gostring) : option Time :=
  match parseLoop (S (length layout)) layout value noFields with
  | None => None
  | Some f =>
      if (day f <? 1) || (day f >? daysIn (month f) (year f)) then None
      else
        Some (mkTime
                (daysFromCivil (year f) (month f) (day f) * 86400
                 + hour f * 3600 + min f * 60 + sec f - zoneOffset f)
                (nanos f)
                None)
  end.

Lemma Parse_wall (layout value : gostring) (t : Time) :
  Parse layout value = Some t -> mono t = None.
Proof.
  unfold Parse. destruct (parseLoop _ _ _ _) as [f |]; [| discriminate].
  destruct (_ || _); [discriminate |]. intro E. injection E as <-. reflexivity.
Qed.

End GoTime.

(** ** The Content Sanitizer and the selection rules, as the specification
    words them *)

(** [sanitize(text, maxLength)]: the composition [getDescription] applies to
    the field it selected. *)
Definition sanitize `{Html} (text : gostring) (maxLength : Z) : option gostring :=
  option_map stripMarkdown (cleanHTML text maxLength).

(** The first non-empty string of a priority list. *)
Fixpoint firstNonEmpty (candidates : list gostring) : option gostring :=
  match candidates with
  | [] => None
  | c :: rest => if isEmpty c then firstNonEmpty rest else Some c
  end.

(** description -> summary -> content -> encoded-content *)
Definition summarySource (item : Item.t) : option gostring :=
  firstNonEmpty
    [Item.Description item; Item.Summary item; Item.Content item; Item.Encoded item].

(** pubDate -> date -> published -> updated *)
Definition dateSource (item : Item.t) : option gostring :=
  firstNonEmpty
    [Item.PubDate item; Item.Date item; Item.Published item; Item.Updated item].

Definition placeholder : gostring := lit "Visit post for details.".

(** RSS channel items -> Atom channel entries -> bare root entries *)
Definition firstNonEmptyLocation (feed : Feed.t) : list Item.t :=
  match Channel.Items (Feed.Channel feed) with
  | _ :: _ => Channel.Items (Feed.Channel feed)
  | [] =>
      match Channel.Entries (Feed.Channel feed) with
      | _ :: _ => Channel.Entries (Feed.Channel feed)
      | [] => Feed.Entries feed
      end
  end.

(** A reserved character of the output markup. *)
Definition isReserved (c : ascii) : bool :=
  existsb (eqs [c]) invalidChars.

(** Newest first: no post is followed by one with a later date, the date
    being the wall-clock instant. *)
Definition notBefore (a b : BlogPost.t) : Prop :=
  wallAfter (BlogPost.Date b) (BlogPost.Date a) = false.

(** A date [parseDate] can return: it carries no monotonic reading, or it
    is a reading of the clock. *)
Definition parsedOrClock `{TimePkg} (t : Time) : Prop :=
  mono t = None \/ exists n, t = clock n.

(** The wall clock is not set back while the program runs: of two
    readings of the clock, the one that is later by the monotonic clock is
    not earlier by the wall clock, and the one that is not later by the
    monotonic clock is not later by the wall clock. *)
Definition wallFollowsMonotonic `{TimePkg} : Prop :=
  forall n m,
    if After (clock n) (clock m)
    then wallAfter (clock m) (clock n) = false
    else wallAfter (clock n) (clock m) = false.

(** Every layout fails on [dateStr]. *)
Definition noLayoutParses `{TimePkg} (dateStr : gostring) : Prop :=
  forall format, In format dateFormats -> time_Parse format dateStr = None.

(** A candidate the loops pass over: empty, or refused by every layout. *)
Definition passedOver `{TimePkg} (dateStr : gostring) : Prop :=
  dateStr = [] \/ noLayoutParses dateStr.

(** What the loop body of [FetchFeed] makes of an item, the date apart. *)
Definition postOf `{Html} (channelTitle : gostring) (item : Item.t) (post : BlogPost.t)
  : Prop :=
  BlogPost.Title post = Item.Title item
  /\ BlogPost.Link post = Item.Link item
  /\ BlogPost.Author post = getAuthor item channelTitle
  /\ getDescription item = Some (BlogPost.Summary post).

(** Text with no white space to collapse: every byte of [\s] is a single
    space that follows a byte which is not white space. *)
Fixpoint singleSpacesFrom (afterSpace : bool) (s : gostring) : bool :=
  match s with
  | [] => true
  | c :: rest =>
      if isReSpace c
      then isSpaceByte c && negb afterSpace && singleSpacesFrom true rest
      else singleSpacesFrom false rest
  end.

Definition singleSpaces (s : gostring) : bool := singleSpacesFrom false s.

Definition noReserved (s : gostring) : bool :=
  forallb (fun c => negb (isReserved c)) s.

(** Steps (a) to (c) of [cleanHTML]: the text as it stands before the
    truncation. *)
Definition normalize `{Html} (input : gostring) : gostring :=
  wsRegex_ReplaceAllString
    (UnescapeString (tagRegex_ReplaceAllString input [])) (lit " ").

(** [strings.HasSuffix(s, suffix)] *)
Definition HasSuffix (s suffix : gostring) : bool :=
  HasPrefix (rev s) (rev suffix).

(** No byte of [p] is a period. *)
Definition noDot (p : gostring) : bool :=
  forallb (fun c => negb (isDot c)) p.

(** No '<' of the text has a '>' after it: [tagRegex] matches nowhere. *)
Fixpoint noTagLeft (s : gostring) : bool :=
  match s with
  | [] => true
  | c :: rest => negb (isLT c && existsb isGT rest) && noTagLeft rest
  end.

(** The date fields of an item in the order [parseDate] tries them. *)
Definition dateCandidatesOf (item : Item.t) : list gostring :=
  [Item.PubDate item; Item.Date item; Item.Published item; Item.Updated item].

(** An item none of whose date fields parses under any layout. *)
Definition hasNoDate `{TimePkg} (item : Item.t) : bool :=
  match parseDate_candidates (dateCandidatesOf item) with
  | Some _ => false
  | None => true
  end.

(** The date of the post made of an item: the parse of a date field when
    there is one, else a reading of the clock. *)
Definition dateOf `{TimePkg} (item : Item.t) (post : BlogPost.t) : Prop :=
  match parseDate_candidates (dateCandidatesOf item) with
  | Some t => BlogPost.Date post = t
  | None => exists n, BlogPost.Date post = clock n
  end.

(** What [FetchFeed] returns when [http.Get] fails with [cause], and the
    line [FetchAllFeeds] logs for it. *)
Definition fetchError (url cause : gostring) : gostring :=
  lit "fetching feed " ++ url ++ lit ": " ++ cause.

Definition fetchErrorLine (url cause : gostring) : gostring :=
  lit "err fetching " ++ url ++ lit ": " ++ fetchError url cause.

(** The batches of posts the tasks of [FetchAllFeeds] obtain from
    [FetchFeed], in the order the tasks complete; a task that fails leaves
    its line in the log and no batch. *)
Fixpoint fetchedBatches `{Html} `{TimePkg} `{Network} (order : list gostring) (w : World)
  : list (list BlogPost.t) :=
  match order with
  | [] => []
  | url :: rest =>
      match FetchFeed url w with
      | Some (Ok feedPosts, w1) => feedPosts :: fetchedBatches rest w1
      | Some (Err err, w1) =>
          fetchedBatches rest
            {| reads := reads w1;
               logs := logs w1 ++ [lit "err fetching " ++ url ++ lit ": " ++ err] |}
      | None => []
      end
  end.

(** A computation that looks at the world through the clock only, not
    through the log: from two worlds with the same count of clock readings
    it returns the same value and leaves that count equal. *)
Definition logBlind {A : Type} (m : M A) : Prop :=
  forall w1 w2, reads w1 = reads w2 ->
    match m w1, m w2 with
    | Some (a1, w1'), Some (a2, w2') => a1 = a2 /\ reads w1' = reads w2'
    | None, None => True
    | _, _ => False
    end.

(** Every item of the feed behind [url], when there is one, has a date
    field that parses. *)
Definition allDated `{TimePkg} `{Network} (url : gostring) : Prop :=
  forall resp body feed,
    http_Get url = Ok resp -> io_ReadAll resp = Ok body -> xml_Unmarshal body = Ok feed ->
    Forall (fun item => hasNoDate item = false) (firstNonEmptyLocation feed).

(** The batch of posts the task for [url] appends to the collection; for a
    feed all of whose items are dated it is the same in every world. *)
Definition batchOf `{Html} `{TimePkg} `{Network} (url : gostring) : list BlogPost.t :=
  match FetchAllFeeds_task url [] {| reads := 0; logs := [] |} with
  | Some (batch, _) => batch
  | None => []
  end.

(** ** Fixtures for evaluation

    A decoder for text that holds no entity, a clock, and a network of two
    addresses: an RSS feed and an Atom feed whose entries sit at the root. *)

Definition entityFree : Html :=
  {| UnescapeString := fun s => s;
     UnescapeString_no_amp := fun s _ => eq_refl |}.

Definition tickingClock (n : nat) : Time :=
  mkTime (1700000000 + Z.of_nat n) 0 (Some (Z.of_nat n)).

Definition goTime : TimePkg :=
  {| time_Parse := GoTime.Parse; clock := tickingClock;
     time_Parse_wall := GoTime.Parse_wall |}.

Definition emptyItem : Item.t :=
  Item.mk [] [] [] [] [] [] [] [] [] [] [] [].

Definition rssItem : Item.t :=
  Item.mk (lit "Old news") (lit "https://a.example/1")
          (lit "Mon, 02 Jan 2023 10:00:00 GMT") [] [] []
          (lit "<p>Hello *world*!</p>") [] [] [] (lit "Ann") [].

Definition atomEntry1 : Item.t :=
  Item.mk (lit "January") (lit "https://b.example/1")
          [] [] (lit "2023-01-01") []
          [] (lit "first") [] [] [] [].

Definition atomEntry2 : Item.t :=
  Item.mk (lit "June") (lit "https://b.example/2")
          [] [] (lit "2023-06-01") []
          [] (lit "second") [] [] [] [].

Definition rssFeed : Feed.t :=
  Feed.mk (Channel.mk (lit "A") [rssItem] []) [].

Definition atomFeed : Feed.t :=
  Feed.mk (Channel.mk [] [] []) [atomEntry1; atomEntry2].

Definition fixtureNetwork : Network :=
  {| Response := gostring;
     http_Get := fun url =>
       if eqs url (lit "https://a.example/feed") then Ok (lit "rss")
       else if eqs url (lit "https://b.example/feed") then Ok (lit "atom")
       else Err (lit "no such host");
     io_ReadAll := fun resp => Ok resp;
     xml_Unmarshal := fun body =>
       if eqs body (lit "rss") then Ok rssFeed
       else if eqs body (lit "atom") then Ok atomFeed
       else Err (lit "EOF") |}.

Definition world0 : World := mkWorld 0 [].

(** An item with a title and a link and nothing else. *)
Definition anonymousItem : Item.t :=
  Item.mk (lit "t") (lit "l") [] [] [] [] [] [] [] [] [] [].

(** An item whose only description-like field is markup and a reserved
    character. *)
Definition tagsOnlyItem : Item.t :=
  Item.mk (lit "t") (lit "l") [] [] [] [] [] (lit "<p>*</p>") [] [] [] [].

(** An item with no author and a description that is an empty paragraph. *)
Definition bareItem : Item.t :=
  Item.mk (lit "t") (lit "l") [] [] [] [] (lit "<p></p>") [] [] [] [] [].

(** An item whose pubDate is not a date and whose date field is one. *)
Definition fallThroughItem : Item.t :=
  Item.mk (lit "t") (lit "l") (lit "soon") (lit "2023-06-01") [] []
          [] [] [] [] [] [].

(** A feed whose first item has no date field at all, behind a network
    that serves it at every address. *)
Definition undatedFeed : Feed.t :=
  Feed.mk (Channel.mk (lit "C") [anonymousItem; rssItem] []) [].

Definition undatedNetwork : Network :=
  {| Response := gostring;
     http_Get := fun url => Ok url;
     io_ReadAll := fun resp => Ok resp;
     xml_Unmarshal := fun body => Ok undatedFeed |}.

(** A clock whose wall time is set back by fifty seconds at every reading
    while its monotonic reading goes on, and a feed of two items without
    any date field behind a network that serves it at every address. *)
Definition setBackClock (n : nat) : Time :=
  mkTime (1700000100 - 50 * Z.of_nat n) 0 (Some (Z.of_nat n)).

Definition setBackTime : TimePkg :=
  {| time_Parse := GoTime.Parse; clock := setBackClock;
     time_Parse_wall := GoTime.Parse_wall |}.

Definition twoUndatedFeed : Feed.t :=
  Feed.mk (Channel.mk (lit "C")
             [anonymousItem;
              Item.mk (lit "second") (lit "l2") [] [] [] [] [] [] [] [] [] []] []) [].

Definition twoUndatedNetwork : Network :=
  {| Response := gostring;
     http_Get := fun url => Ok url;
     io_ReadAll := fun resp => Ok resp;
     xml_Unmarshal := fun body => Ok twoUndatedFeed |}.

(** * Properties *)

(** ** Bytes and prefixes *)

Ltac each_byte c :=
  destruct c as [[] [] [] [] [] [] [] []]; try reflexivity; try discriminate.

Lemma isEmpty_true (s : gostring) : isEmpty s = true <-> s = [].
Proof.
  destruct s; simpl; split; intro E; try reflexivity; discriminate.
Qed.

Lemma isEmpty_false (s : gostring) : isEmpty s = false <-> s <> [].
Proof.
  destruct s; simpl; split; intro E; try discriminate; congruence.
Qed.

Lemma HasPrefix_one (c x : ascii) (s : gostring) :
  HasPrefix (x :: s) [c] = Ascii.eqb c x.
Proof. simpl. destruct s; apply andb_true_r. Qed.

(** ** stripMarkdown removes exactly the reserved bytes *)

Lemma ReplaceAll_one (c : ascii) (s : gostring) :
  ReplaceAll s [c] [] = filter (fun x => negb (Ascii.eqb c x)) s.
Proof.
  unfold ReplaceAll. simpl isEmpty. cbv iota.
  induction s as [| x s IH]; [reflexivity |].
  cbn [replaceFrom filter]. rewrite HasPrefix_one.
  destruct (Ascii.eqb c x); simpl; rewrite IH; reflexivity.
Qed.

Lemma filter_filter {A : Type} (f g : A -> bool) (l : list A) :
  filter f (filter g l) = filter (fun x => g x && f x) l.
Proof.
  induction l as [| x l IH]; [reflexivity |].
  simpl. destruct (g x); simpl; [destruct (f x) |]; rewrite IH; reflexivity.
Qed.

Lemma stripMarkdown_filter (input : gostring) :
  stripMarkdown input = filter (fun c => negb (isReserved c)) input.
Proof.
  unfold stripMarkdown, invalidChars. cbn [lit list_ascii_of_string stripMarkdown_loop].
  repeat rewrite ReplaceAll_one. repeat rewrite filter_filter.
  apply filter_ext. intro c. each_byte c.
Qed.

Lemma isReserved_In (c : ascii) : In [c] invalidChars -> isReserved c = true.
Proof.
  unfold invalidChars. cbn [lit list_ascii_of_string In].
  intro HIn.
  repeat (destruct HIn as [E | HIn]; [injection E as <-; reflexivity |]).
  contradiction.
Qed.

Lemma stripMarkdown_length (input : gostring) :
  length (stripMarkdown input) <= length input.
Proof. rewrite stripMarkdown_filter. apply filter_length_le. Qed.

Lemma stripMarkdown_unreserved (input : gostring) (c : ascii) :
  In c (stripMarkdown input) -> isReserved c = false.
Proof.
  rewrite stripMarkdown_filter. intro HIn. apply filter_In in HIn.
  destruct HIn as [_ Hc]. now apply negb_true_iff in Hc.
Qed.

Lemma stripMarkdown_id (input : gostring) :
  forallb (fun c => negb (isReserved c)) input = true -> stripMarkdown input = input.
Proof.
  rewrite stripMarkdown_filter. intro Hall.
  induction input as [| c s IH]; [reflexivity |].
  simpl in *. apply andb_true_iff in Hall. destruct Hall as [Hc Hs].
  rewrite Hc, IH by assumption. reflexivity.
Qed.

(** ** TrimSpace *)

Lemma matchWidth_nil (pats : list gostring) : matchWidth pats [] = 0.
Proof.
  induction pats as [| p pats IH]; [reflexivity |].
  destruct p; simpl; [reflexivity | exact IH].
Qed.

Lemma matchWidth_zero (pats : list gostring) (s : gostring) :
  Forall (fun p => p <> []) pats ->
  matchWidth pats s = 0 <-> existsb (HasPrefix s) pats = false.
Proof.
  intro Hne. induction Hne as [| p pats Hp _ IH]; simpl.
  - split; reflexivity.
  - destruct (HasPrefix s p); simpl.
    + destruct p; [congruence |]. simpl. split; discriminate.
    + exact IH.
Qed.

Lemma spaceRunes_nonempty : Forall (fun p : gostring => p <> []) spaceRunes.
Proof. unfold spaceRunes. repeat constructor; discriminate. Qed.

Lemma spaceRunes_rev_nonempty :
  Forall (fun p : gostring => p <> []) (map (@rev ascii) spaceRunes).
Proof. unfold spaceRunes. repeat constructor; discriminate. Qed.

Lemma dropWhileMatch_skipn (fuel : nat) (pats : list gostring) (s : gostring) :
  exists n, dropWhileMatch fuel pats s = skipn n s.
Proof.
  revert s. induction fuel as [| fuel IH]; intro s; cbn [dropWhileMatch].
  - exists 0. reflexivity.
  - destruct (matchWidth pats s) as [| w].
    + exists 0. reflexivity.
    + destruct (IH (skipn (S w) s)) as [n Hn].
      exists (n + S w). rewrite Hn. apply skipn_skipn.
Qed.

Lemma dropWhileMatch_done (fuel : nat) (pats : list gostring) (s : gostring) :
  length s <= fuel -> matchWidth pats (dropWhileMatch fuel pats s) = 0.
Proof.
  revert s. induction fuel as [| fuel IH]; intros s Hlen; cbn [dropWhileMatch].
  - destruct s; [apply matchWidth_nil | simpl in Hlen; lia].
  - destruct (matchWidth pats s) as [| w] eqn:Hw; [exact Hw |].
    apply IH. rewrite length_skipn. lia.
Qed.

Lemma dropWhileMatch_id (fuel : nat) (pats : list gostring) (s : gostring) :
  matchWidth pats s = 0 -> dropWhileMatch fuel pats s = s.
Proof. intro Hw. destruct fuel; cbn [dropWhileMatch]; [| rewrite Hw]; reflexivity. Qed.

Lemma TrimLeftSpace_suffix (s : gostring) : exists n, TrimLeftSpace s = skipn n s.
Proof. apply dropWhileMatch_skipn. Qed.

Lemma TrimRightSpace_prefix (s : gostring) : exists k, TrimRightSpace s = firstn k s.
Proof.
  unfold TrimRightSpace.
  destruct (dropWhileMatch_skipn (length s) (map (@rev ascii) spaceRunes) (rev s))
    as [n Hn].
  exists (length s - n). rewrite Hn, skipn_rev. apply rev_involutive.
Qed.

Lemma TrimSpace_length (s : gostring) : length (TrimSpace s) <= length s.
Proof.
  unfold TrimSpace.
  destruct (TrimRightSpace_prefix (TrimLeftSpace s)) as [k ->].
  destruct (TrimLeftSpace_suffix s) as [n ->].
  rewrite length_firstn, length_skipn. lia.
Qed.

Lemma HasPrefix_firstn (k : nat) (s p : gostring) :
  HasPrefix (firstn k s) p = true -> HasPrefix s p = true.
Proof.
  revert k s. induction p as [| c p IH]; intros k s; [destruct s; reflexivity |].
  destruct k, s; simpl; try discriminate.
  intro Hp. apply andb_true_iff in Hp. destruct Hp as [-> Hp].
  simpl. now apply (IH k).
Qed.

Lemma hasSpacePrefix_firstn (k : nat) (s : gostring) :
  hasSpacePrefix s = false -> hasSpacePrefix (firstn k s) = false.
Proof.
  unfold hasSpacePrefix. rewrite !negb_false_iff, !Nat.eqb_eq.
  rewrite !(matchWidth_zero _ _ spaceRunes_nonempty).
  intro Hs. apply not_true_is_false. intro Hk. apply existsb_exists in Hk.
  destruct Hk as [p [HIn Hp]].
  assert (existsb (HasPrefix s) spaceRunes = true) as Hyes.
  { apply existsb_exists. exists p. split; [exact HIn |].
    now apply (HasPrefix_firstn k). }
  congruence.
Qed.

Lemma TrimLeftSpace_trimmed (s : gostring) : hasSpacePrefix (TrimLeftSpace s) = false.
Proof.
  unfold hasSpacePrefix, TrimLeftSpace.
  rewrite dropWhileMatch_done by lia. reflexivity.
Qed.

Lemma TrimRightSpace_trimmed (s : gostring) : hasSpaceSuffix (TrimRightSpace s) = false.
Proof.
  unfold hasSpaceSuffix, TrimRightSpace. rewrite rev_involutive.
  rewrite dropWhileMatch_done by (rewrite length_rev; lia). reflexivity.
Qed.

Lemma TrimSpace_trimmed (s : gostring) :
  hasSpacePrefix (TrimSpace s) = false /\ hasSpaceSuffix (TrimSpace s) = false.
Proof.
  unfold TrimSpace. split; [| apply TrimRightSpace_trimmed].
  destruct (TrimRightSpace_prefix (TrimLeftSpace s)) as [k ->].
  apply hasSpacePrefix_firstn, TrimLeftSpace_trimmed.
Qed.

Lemma TrimSpace_id (s : gostring) :
  hasSpacePrefix s = false -> hasSpaceSuffix s = false -> TrimSpace s = s.
Proof.
  unfold hasSpacePrefix, hasSpaceSuffix, TrimSpace, TrimLeftSpace, TrimRightSpace.
  rewrite !negb_false_iff, !Nat.eqb_eq. intros Hl Hr.
  rewrite (dropWhileMatch_id _ _ s Hl), (dropWhileMatch_id _ _ (rev s) Hr).
  apply rev_involutive.
Qed.

(** ** cleanHTML: no panic for a positive bound, and the length bound *)

Lemma lastByte_some (s : gostring) : s <> [] -> exists c, lastByte s = Some c.
Proof.
  unfold lastByte. intro Hne. destruct (rev s) as [| c r] eqn:Hrev.
  - apply (f_equal (@rev ascii)) in Hrev. rewrite rev_involutive in Hrev.
    contradiction.
  - exists c. reflexivity.
Qed.

Lemma removelast_length {A : Type} (l : list A) :
  length (removelast l) = length l - 1.
Proof. rewrite removelast_firstn_len, length_firstn. lia. Qed.

Lemma cleanHTML_total `{Html} (input : gostring) (maxLength : Z) :
  (0 < maxLength)%Z -> exists out, cleanHTML input maxLength = Some out.
Proof.
  intro Hpos. unfold cleanHTML.
  set (cleaned := wsRegex_ReplaceAllString _ _).
  destruct (Z.gtb_spec (Z.of_nat (length cleaned)) maxLength) as [Hgt | Hle].
  - destruct (Z.ltb_spec maxLength 0) as [Hneg | _]; [lia |].
    destruct (lastByte_some (firstn (Z.to_nat maxLength) cleaned)) as [c ->].
    + intro Hnil. apply (f_equal (@length ascii)) in Hnil.
      rewrite length_firstn in Hnil. simpl in Hnil. lia.
    + eexists. reflexivity.
  - eexists. reflexivity.
Qed.

Lemma cleanHTML_length `{Html} (input out : gostring) (maxLength : Z) :
  cleanHTML input maxLength = Some out ->
  (Z.of_nat (length out) <= Z.max 0 maxLength + Z.of_nat (length (lit "...")))%Z.
Proof.
  unfold cleanHTML.
  set (cleaned := wsRegex_ReplaceAllString _ _).
  destruct (Z.gtb_spec (Z.of_nat (length cleaned)) maxLength) as [Hgt | Hle].
  - destruct (Z.ltb_spec maxLength 0) as [Hneg | Hnn]; [discriminate |].
    destruct (lastByte _) as [c |]; [| discriminate].
    intro E. injection E as <-.
    pose proof (TrimSpace_length
      ((if isSpaceByte c || isDot c
        then removelast (firstn (Z.to_nat maxLength) cleaned)
        else firstn (Z.to_nat maxLength) cleaned) ++ lit "...")) as Htrim.
    rewrite length_app in Htrim.
    assert (length (if isSpaceByte c || isDot c
                    then removelast (firstn (Z.to_nat maxLength) cleaned)
                    else firstn (Z.to_nat maxLength) cleaned)
            <= Z.to_nat maxLength) as Hcut.
    { destruct (isSpaceByte c || isDot c);
        [rewrite removelast_length |]; rewrite length_firstn; lia. }
    cbn [lit list_ascii_of_string] in Htrim |- *. lia.
  - intro E. injection E as <-.
    pose proof (TrimSpace_length cleaned). lia.
Qed.

(** ** The sanitizer *)

Lemma sanitize_total `{Html} (text : gostring) :
  exists cleaned,
    cleanHTML text 200 = Some cleaned
    /\ sanitize text 200 = Some (stripMarkdown cleaned).
Proof.
  destruct (cleanHTML_total text 200) as [cleaned Hc]; [lia |].
  exists cleaned. unfold sanitize. rewrite Hc. split; reflexivity.
Qed.

(** Once the tags are gone and no '&' is left, every decoder gives what the
    fixture [entityFree] gives. *)
Lemma cleanHTML_no_amp `{Html} (input : gostring) (maxLength : Z) :
  existsb isAmp (tagRegex_ReplaceAllString input []) = false ->
  cleanHTML input maxLength = @cleanHTML entityFree input maxLength.
Proof.
  intro Hamp. unfold cleanHTML.
  rewrite (UnescapeString_no_amp _ Hamp). reflexivity.
Qed.

Lemma sanitize_no_amp `{Html} (text : gostring) (maxLength : Z) :
  existsb isAmp (tagRegex_ReplaceAllString text []) = false ->
  sanitize text maxLength = @sanitize entityFree text maxLength.
Proof. intro Hamp. unfold sanitize. now rewrite cleanHTML_no_amp. Qed.

(** C4: for every text and the fixed maximum length 200, the sanitizer's
    output is at most 200 + len("...") bytes long and holds none of the
    reserved markup characters of [invalidChars]. *)
Theorem sanitize_bounded_and_unreserved `{Html} (text : gostring) :
  exists out,
    sanitize text 200 = Some out
    /\ length out <= 200 + length (lit "...")
    /\ (forall c, In c out -> ~ In [c] invalidChars).
Proof.
  destruct (sanitize_total text) as [cleaned [Hclean Hsan]].
  exists (stripMarkdown cleaned). split; [exact Hsan |]. split.
  - pose proof (stripMarkdown_length cleaned) as Hstrip.
    pose proof (cleanHTML_length _ _ _ Hclean) as Hlen.
    cbn [lit list_ascii_of_string length] in Hlen |- *. lia.
  - intros c HIn Hres. apply stripMarkdown_unreserved in HIn.
    apply isReserved_In in Hres. congruence.
Qed.

(** ** Field resolution *)

Lemma getDescription_loop_spec `{Html} (candidates : list gostring) :
  getDescription_loop candidates =
  match firstNonEmpty candidates with
  | Some source => sanitize source 200
  | None => Some placeholder
  end.
Proof.
  induction candidates as [| c rest IH]; [reflexivity |].
  simpl. destruct (isEmpty c); simpl; [exact IH | reflexivity].
Qed.

Lemma getDescription_spec `{Html} (item : Item.t) :
  getDescription item =
  match summarySource item with
  | Some source => sanitize source 200
  | None => Some placeholder
  end.
Proof. apply getDescription_loop_spec. Qed.

(** C5: the summary source is the first non-empty of description, summary,
    content and encoded content, in that order, and it is that raw field
    which goes through the sanitizer; when all four are empty the result is
    the placeholder "Visit post for details." itself, not sanitized. *)
Theorem getDescription_selects_first_nonempty `{Html} (item : Item.t) :
  getDescription item =
  match summarySource item with
  | Some source => sanitize source 200
  | None => Some (lit "Visit post for details.")
  end.
Proof.
  unfold getDescription, summarySource.
  generalize [Item.Description item; Item.Summary item;
              Item.Content item; Item.Encoded item].
  intro candidates. induction candidates as [| c rest IH]; [reflexivity |].
  cbn [getDescription_loop firstNonEmpty].
  destruct (isEmpty c); [exact IH | reflexivity].
Qed.

Lemma getDescription_total `{Html} (item : Item.t) :
  exists summary, getDescription item = Some summary.
Proof.
  rewrite getDescription_spec.
  destruct (summarySource item) as [source |].
  - destruct (sanitize_total source) as [cleaned [_ Hs]]. eauto.
  - eauto.
Qed.

Lemma firstNonEmpty_none (candidates : list gostring) :
  firstNonEmpty candidates = None <-> Forall (fun c => c = []) candidates.
Proof.
  induction candidates as [| c rest IH]; simpl.
  - split; [constructor | reflexivity].
  - destruct c; simpl.
    + rewrite IH. split; [now constructor | now inversion 1].
    + split; [discriminate | inversion 1; discriminate].
Qed.

Lemma firstNonEmpty_nonempty (candidates : list gostring) (source : gostring) :
  firstNonEmpty candidates = Some source -> source <> [].
Proof.
  induction candidates as [| c rest IH]; simpl; [discriminate |].
  destruct c; simpl; [exact IH |]. intro E. injection E as <-. discriminate.
Qed.

(** C8: [getAuthor] returns the item's author when it is not empty, else
    its creator when that is not empty, else exactly the channel title it
    was given, the empty string included. *)
Theorem getAuthor_fallback_chain (item : Item.t) (channelTitle : gostring) :
  (Item.Author item <> [] -> getAuthor item channelTitle = Item.Author item)
  /\ (Item.Author item = [] -> Item.Creator item <> [] ->
      getAuthor item channelTitle = Item.Creator item)
  /\ (Item.Author item = [] -> Item.Creator item = [] ->
      getAuthor item channelTitle = channelTitle).
Proof.
  unfold getAuthor.
  destruct (Item.Author item) as [| a author]; simpl;
    destruct (Item.Creator item) as [| c creator]; simpl;
    repeat split; intros; congruence.
Qed.

Lemma getAuthor_fallback_chain_witness :
  getAuthor anonymousItem [] = [].
Proof.
  apply (proj2 (proj2 (getAuthor_fallback_chain
                         anonymousItem [])));
    reflexivity.
Defined.

(** C10: the placeholder stands in only when all four description-like
    fields are empty; an item whose first non-empty field sanitizes to the
    empty string gets the empty summary, not the placeholder. *)
Theorem placeholder_only_when_all_sources_empty `{Html} (item : Item.t) :
  (summarySource item = None <->
   Item.Description item = [] /\ Item.Summary item = []
   /\ Item.Content item = [] /\ Item.Encoded item = [])
  /\ (summarySource item = None ->
      getDescription item = Some (lit "Visit post for details."))
  /\ (forall source,
        summarySource item = Some source ->
        sanitize source 200 = Some [] ->
        getDescription item = Some []
        /\ getDescription item <> Some (lit "Visit post for details.")).
Proof.
  split; [| split].
  - unfold summarySource. rewrite firstNonEmpty_none. split.
    + intro Hall.
      repeat match goal with
             | Hf : Forall _ (_ :: _) |- _ => inversion Hf; subst; clear Hf
             end.
      repeat split; assumption.
    + intros [Hd [Hs [Hc He]]]. repeat constructor; assumption.
  - intro Hnone. rewrite getDescription_spec, Hnone. reflexivity.
  - intros source Hsrc Hsan.
    rewrite getDescription_spec, Hsrc, Hsan.
    split; [reflexivity | discriminate].
Qed.

Lemma placeholder_only_when_all_sources_empty_witness :
  @getDescription entityFree tagsOnlyItem = Some []
  /\ @getDescription entityFree tagsOnlyItem <> Some (lit "Visit post for details.").
Proof.
  apply (proj2 (proj2 (@placeholder_only_when_all_sources_empty entityFree tagsOnlyItem))
           (lit "<p>*</p>")); reflexivity.
Defined.

(** ** Where the trim happens *)

(** C3 (as the code has it): the trim of leading and trailing white space
    is the last step of [cleanHTML] and comes before the removal of the
    reserved characters by [stripMarkdown]; so for every text the output of
    [cleanHTML] has no leading or trailing white space, and the sanitized
    text is that output with the reserved characters taken out. *)
Theorem cleanHTML_trims_before_stripMarkdown `{Html} (text : gostring) :
  exists cleaned,
    cleanHTML text 200 = Some cleaned
    /\ hasSpacePrefix cleaned = false
    /\ hasSpaceSuffix cleaned = false
    /\ sanitize text 200 = Some (stripMarkdown cleaned).
Proof.
  destruct (sanitize_total text) as [cleaned [Hclean Hsan]].
  exists cleaned. split; [exact Hclean |].
  assert (exists t, cleaned = TrimSpace t) as [t ->].
  { unfold cleanHTML in Hclean.
    destruct (_ >? _)%Z; [destruct (_ <? _)%Z; [discriminate |] |].
    - destruct (lastByte _); [| discriminate].
      injection Hclean as <-. eauto.
    - injection Hclean as <-. eauto. }
  destruct (TrimSpace_trimmed t) as [Hl Hr]. auto.
Qed.

(** C3, counterexample: removing a reserved character at either end of the
    trimmed text uncovers the white space next to it. *)
Lemma sanitized_text_keeps_uncovered_space :
  (forall H : Html, @sanitize H (lit "* hello *") 200 = Some (lit " hello "))
  /\ hasSpacePrefix (lit " hello ") = true
  /\ hasSpaceSuffix (lit " hello ") = true.
Proof.
  split; [| split; reflexivity].
  intro H. rewrite sanitize_no_amp by reflexivity. reflexivity.
Qed.

(** ** The post of one item *)

Lemma parseDate_total `{TimePkg} (item : Item.t) (w : World) :
  exists date w', parseDate item w = Some (date, w').
Proof.
  unfold parseDate. destruct (parseDate_candidates _); eexists; eexists; reflexivity.
Qed.

Lemma FetchFeed_post_spec `{Html} `{TimePkg} (item : Item.t) (channelTitle : gostring)
  (w : World) :
  exists date summary w',
    parseDate item w = Some (date, w')
    /\ getDescription item = Some summary
    /\ FetchFeed_post item channelTitle w =
       Some ({| BlogPost.Title := Item.Title item;
                BlogPost.Link := Item.Link item;
                BlogPost.Date := date;
                BlogPost.Author := getAuthor item channelTitle;
                BlogPost.Summary := summary |}, w').
Proof.
  destruct (parseDate_total item w) as [date [w' Hd]].
  destruct (getDescription_total item) as [summary Hs].
  exists date, summary, w'. repeat split; try assumption.
  unfold FetchFeed_post, bind. rewrite Hd, Hs. reflexivity.
Qed.

Lemma getAuthor_nonempty (item : Item.t) (channelTitle : gostring) :
  getAuthor item channelTitle <> [] <->
  Item.Author item <> [] \/ Item.Creator item <> [] \/ channelTitle <> [].
Proof.
  unfold getAuthor.
  destruct (Item.Author item) as [| a author]; simpl;
    destruct (Item.Creator item) as [| c creator]; simpl.
  - split; [auto | intros [E | [E | E]]; congruence].
  - split; [intros _; right; left; discriminate | discriminate].
  - split; [intros _; left; discriminate | discriminate].
  - split; [intros _; left; discriminate | discriminate].
Qed.

(** C2 (as the code has it): the post built for an item has a non-empty
    author exactly when the item's author, its creator or the channel title
    is non-empty, and a non-empty summary exactly when all four
    description-like fields are empty (the placeholder) or the first
    non-empty one sanitizes to a non-empty string. *)
Theorem FetchFeed_post_author_and_summary `{Html} `{TimePkg} (item : Item.t)
  (channelTitle : gostring) (w : World) :
  exists post w',
    FetchFeed_post item channelTitle w = Some (post, w')
    /\ (BlogPost.Author post <> [] <->
        Item.Author item <> [] \/ Item.Creator item <> [] \/ channelTitle <> [])
    /\ (BlogPost.Summary post <> [] <->
        summarySource item = None
        \/ exists source out,
             summarySource item = Some source
             /\ sanitize source 200 = Some out /\ out <> []).
Proof.
  destruct (FetchFeed_post_spec item channelTitle w)
    as [date [summary [w' [_ [Hs Hpost]]]]].
  eexists. exists w'. split; [exact Hpost |]. cbn [BlogPost.Author BlogPost.Summary].
  split; [apply getAuthor_nonempty |].
  rewrite getDescription_spec in Hs.
  destruct (summarySource item) as [source |].
  - split.
    + intro Hne. right. exists source, summary. auto.
    + intros [Hnone | [source' [out [Hsrc [Hsan Hne]]]]]; [discriminate |].
      injection Hsrc as <-. congruence.
  - injection Hs as <-. split; [auto | discriminate].
Qed.

(** C2, counterexample: an item without author or creator, under a channel
    without title, whose description is an empty paragraph: the post has
    an empty author and an empty summary, whatever the entity decoder, the
    time package and the state of the world. *)
Lemma post_with_empty_author_and_summary :
  Item.Description bareItem = lit "<p></p>"
  /\ (forall (H : Html) (T : TimePkg) (w : World),
        exists post w',
          @FetchFeed_post H T bareItem [] w = Some (post, w')
          /\ BlogPost.Author post = []
          /\ BlogPost.Summary post = []).
Proof.
  split; [reflexivity |]. intros H T w.
  destruct (FetchFeed_post_spec bareItem [] w)
    as [date [summary [w' [_ [Hs Hpost]]]]].
  eexists. exists w'. split; [exact Hpost |].
  cbn [BlogPost.Author BlogPost.Summary]. split; [reflexivity |].
  rewrite getDescription_spec in Hs.
  change (summarySource bareItem) with (Some (lit "<p></p>")) in Hs.
  cbv iota in Hs. rewrite sanitize_no_amp in Hs by reflexivity.
  vm_compute in Hs. congruence.
Qed.

(** ** Text that is already clean *)

Lemma isReserved_lt (c : ascii) : isReserved c = false -> isLT c = false.
Proof. each_byte c. Qed.

Lemma tagRegex_no_tag (s repl : gostring) :
  noReserved s = true -> tagRegex_ReplaceAllString s repl = s.
Proof.
  unfold tagRegex_ReplaceAllString, noReserved.
  induction s as [| c s IH]; [reflexivity |].
  simpl. intro Hall. apply andb_true_iff in Hall. destruct Hall as [Hc Hs].
  apply negb_true_iff in Hc. rewrite (isReserved_lt c Hc). simpl.
  now rewrite IH.
Qed.

Lemma wsRegex_single_spaces (afterSpace : bool) (s : gostring) :
  singleSpacesFrom afterSpace s = true ->
  wsRegex_walk afterSpace s (lit " ") = s.
Proof.
  revert afterSpace. induction s as [| c s IH]; intro afterSpace; [reflexivity |].
  simpl. destruct (isReSpace c) eqn:Hre.
  - intro Hok. apply andb_true_iff in Hok. destruct Hok as [Hok Hrest].
    apply andb_true_iff in Hok. destruct Hok as [Hsp Hnot].
    apply negb_true_iff in Hnot. subst afterSpace.
    unfold isSpaceByte in Hsp. apply Ascii.eqb_eq in Hsp. subst c.
    simpl. now rewrite IH.
  - intro Hrest. now rewrite IH.
Qed.

(** On clean text every step of the sanitizer is the identity. *)
Lemma sanitize_clean_text `{Html} (s : gostring) (N : Z) :
  noReserved s = true ->
  UnescapeString s = s ->
  singleSpaces s = true ->
  hasSpacePrefix s = false ->
  hasSpaceSuffix s = false ->
  (Z.of_nat (length s) < N)%Z ->
  sanitize s N = Some s.
Proof.
  intros Hres Hent Hws Hlead Htrail Hlen.
  unfold sanitize, cleanHTML.
  rewrite (tagRegex_no_tag s [] Hres), Hent.
  unfold wsRegex_ReplaceAllString. rewrite (wsRegex_single_spaces false s Hws).
  destruct (Z.gtb_spec (Z.of_nat (length s)) N) as [Hgt | _]; [lia |].
  rewrite (TrimSpace_id s Hlead Htrail). simpl.
  now rewrite (stripMarkdown_id s Hres).
Qed.

(** C9: [sanitize] is idempotent on text that is already clean and shorter
    than N: no reserved markup character (hence no tag), no entity, no white
    space to collapse, none at either end, fewer than N bytes.  On such text
    [sanitize] changes nothing, so applying it twice is applying it once. *)
Theorem sanitize_idempotent_on_clean_text `{Html} (s : gostring) (N : Z) :
  noReserved s = true ->
  UnescapeString s = s ->
  singleSpaces s = true ->
  hasSpacePrefix s = false ->
  hasSpaceSuffix s = false ->
  (Z.of_nat (length s) < N)%Z ->
  exists out, sanitize s N = Some out /\ sanitize out N = Some out.
Proof.
  intros Hres Hent Hws Hlead Htrail Hlen.
  exists s. split; now apply sanitize_clean_text.
Qed.

Lemma sanitize_idempotent_on_clean_text_witness :
  exists out,
    @sanitize entityFree (lit "Hello world") 200 = Some out
    /\ @sanitize entityFree out 200 = Some out.
Proof.
  apply (@sanitize_idempotent_on_clean_text entityFree (lit "Hello world") 200);
    reflexivity.
Defined.

(** ** parseDate *)

Lemma parseDate_formats_none `{TimePkg} (formats : list gostring) (dateStr : gostring) :
  (forall format, In format formats -> time_Parse format dateStr = None) ->
  parseDate_formats formats dateStr = None.
Proof.
  induction formats as [| f formats IH]; intro Hall; [reflexivity |].
  simpl. rewrite (Hall f) by now left.
  apply IH. intros format HIn. apply Hall. now right.
Qed.

Lemma parseDate_formats_first `{TimePkg} (earlier later : list gostring)
  (format dateStr : gostring) (t : Time) :
  (forall f, In f earlier -> time_Parse f dateStr = None) ->
  time_Parse format dateStr = Some t ->
  parseDate_formats (earlier ++ format :: later) dateStr = Some t.
Proof.
  intros Hfail Hok. induction earlier as [| f earlier IH]; simpl.
  - now rewrite Hok.
  - rewrite (Hfail f) by now left.
    apply IH. intros f' HIn. apply Hfail. now right.
Qed.

Lemma parseDate_candidates_none `{TimePkg} (dateCandidates : list gostring) :
  Forall passedOver dateCandidates -> parseDate_candidates dateCandidates = None.
Proof.
  induction 1 as [| c rest Hc _ IH]; [reflexivity |].
  cbn [parseDate_candidates]. destruct Hc as [-> | Hc]; [exact IH |].
  destruct (isEmpty c); [exact IH |].
  now rewrite (parseDate_formats_none dateFormats c Hc).
Qed.

Lemma parseDate_candidates_first `{TimePkg} (before after : list gostring)
  (dateStr : gostring) (t : Time) :
  Forall passedOver before ->
  dateStr <> [] ->
  parseDate_formats dateFormats dateStr = Some t ->
  parseDate_candidates (before ++ dateStr :: after) = Some t.
Proof.
  intros Hbefore Hne Hok.
  induction Hbefore as [| c rest Hc _ IH]; cbn [app parseDate_candidates].
  - apply isEmpty_false in Hne. now rewrite Hne, Hok.
  - destruct Hc as [-> | Hc]; [exact IH |].
    destruct (isEmpty c); [exact IH |].
    now rewrite (parseDate_formats_none dateFormats c Hc).
Qed.

(** C1 (as the code has it): [parseDate] goes through pubDate, date,
    published and updated in that order, skipping the empty ones; a
    candidate that every layout refuses is passed over like an empty one
    and the search goes on with the next field.  The result is the parse
    of the first candidate that some layout accepts, under the first
    layout that accepts it, and nothing is logged; only when no candidate
    parses is the warning logged and the current time returned. *)
Theorem parseDate_tries_every_candidate `{TimePkg} (item : Item.t) (w : World) :
  (forall before dateStr after earlier format later t,
      [Item.PubDate item; Item.Date item; Item.Published item; Item.Updated item]
      = before ++ dateStr :: after ->
      Forall passedOver before ->
      dateStr <> [] ->
      dateFormats = earlier ++ format :: later ->
      (forall f, In f earlier -> time_Parse f dateStr = None) ->
      time_Parse format dateStr = Some t ->
      parseDate item w = Some (t, w))
  /\ (Forall passedOver
        [Item.PubDate item; Item.Date item; Item.Published item; Item.Updated item] ->
      parseDate item w =
      Some (clock (reads w),
            {| reads := S (reads w); logs := logs w ++ [warnNoDate item] |})).
Proof.
  split.
  - intros before dateStr after earlier format later t Hcands Hbefore Hne
           Hformats Hearlier Hok.
    unfold parseDate. rewrite Hcands.
    rewrite (parseDate_candidates_first before after dateStr t Hbefore Hne).
    + reflexivity.
    + rewrite Hformats. now apply parseDate_formats_first.
  - intro Hall. unfold parseDate.
    rewrite (parseDate_candidates_none _ Hall). reflexivity.
Qed.

Lemma noLayoutParses_soon : @noLayoutParses goTime (lit "soon").
Proof.
  intros format HIn. unfold dateFormats in HIn. cbn [In] in HIn.
  repeat (destruct HIn as [<- | HIn]; [vm_compute; reflexivity |]).
  contradiction.
Qed.

Lemma parseDate_tries_every_candidate_witness :
  @parseDate goTime fallThroughItem world0 = Some (mkTime 1685577600 0 None, world0).
Proof.
  apply (proj1 (@parseDate_tries_every_candidate goTime fallThroughItem world0)
           [lit "soon"] (lit "2023-06-01") [[]; []]
           (firstn 9 dateFormats) (lit "2006-01-02") (skipn 10 dateFormats)).
  - reflexivity.
  - constructor; [right; exact noLayoutParses_soon | constructor].
  - discriminate.
  - reflexivity.
  - intros f HIn. cbn [firstn dateFormats In] in HIn.
    repeat (destruct HIn as [<- | HIn]; [vm_compute; reflexivity |]).
    contradiction.
  - vm_compute. reflexivity.
Defined.

(** C1, counterexample: pubDate is "soon", which no layout parses, and the
    date field is "2023-06-01".  The first non-empty candidate is pubDate,
    yet [parseDate] returns midnight of 1 June 2023 read off the date field
    and logs nothing, whatever the clock and the world. *)
Lemma parseDate_goes_past_unparseable_candidate :
  dateSource fallThroughItem = Some (lit "soon")
  /\ @noLayoutParses goTime (lit "soon")
  /\ (forall (clk : nat -> Time) (w : World),
        @parseDate {| time_Parse := GoTime.Parse; clock := clk;
                      time_Parse_wall := GoTime.Parse_wall |} fallThroughItem w
        = Some (mkTime 1685577600 0 None, w))
  /\ @parseDate goTime fallThroughItem world0
     <> Some (tickingClock 0,
              {| reads := 1; logs := [warnNoDate fallThroughItem] |}).
Proof.
  split; [reflexivity |]. split; [exact noLayoutParses_soon |]. split.
  - intros clk w. unfold parseDate.
    replace (parseDate_candidates _) with (Some (mkTime 1685577600 0 None));
      [reflexivity | vm_compute; reflexivity].
  - vm_compute. discriminate.
Qed.

(** ** sort.Slice

    The comparison handed to [sort.Slice] need not be a strict weak order
    on every value; what the sort needs is that on the elements of the
    slice (those that satisfy [inSlice]) it goes along with a transitive
    order [ge]: an element that is less than another stands at or above it
    in that order, and one that is not less stands at or below it. *)

Section InsertionSort.

Variable A : Type.
Variable less : A -> A -> bool.
Variable ge : A -> A -> Prop.
Variable inSlice : A -> Prop.
Hypothesis ge_trans : forall a b c, ge a b -> ge b c -> ge a c.
Hypothesis less_ge :
  forall a b, inSlice a -> inSlice b -> less a b = true -> ge a b.
Hypothesis not_less_ge :
  forall a b, inSlice a -> inSlice b -> less a b = false -> ge b a.

Lemma sink_perm (x : A) (sorted : list A) : Permutation (x :: sorted) (sink less x sorted).
Proof.
  induction sorted as [| y sorted IH]; simpl; [apply Permutation_refl |].
  destruct (less x y); [| apply Permutation_refl].
  eapply perm_trans; [apply perm_swap |]. now apply perm_skip.
Qed.

(** The sorted range is held last element first: every element is at or
    below the ones that follow it in the list. *)
Lemma sink_sorted (x : A) (sorted : list A) :
  inSlice x -> Forall inSlice sorted ->
  StronglySorted (fun a b => ge b a) sorted ->
  StronglySorted (fun a b => ge b a) (sink less x sorted).
Proof.
  intros Hx Hin Hs. induction Hs as [| y sorted Hs IH Hy]; simpl.
  - repeat constructor.
  - inversion Hin as [| ? ? Hyin Hin']; subst.
    destruct (less x y) eqn:Hxy.
    + constructor; [now apply IH |].
      apply (Permutation_Forall (sink_perm x sorted)).
      constructor; [now apply less_ge | exact Hy].
    + constructor; [now constructor |].
      assert (ge y x) as Hyx by now apply not_less_ge.
      constructor; [exact Hyx |].
      eapply Forall_impl; [| exact Hy].
      intros z Hzy. now apply (ge_trans z y x).
Qed.

Lemma StronglySorted_snoc (R : A -> A -> Prop) (l : list A) (x : A) :
  StronglySorted R l -> Forall (fun y => R y x) l -> StronglySorted R (l ++ [x]).
Proof.
  induction 1 as [| a l Hs IH Ha]; intro Hx; simpl.
  - repeat constructor.
  - inversion Hx; subst. constructor; [now apply IH |].
    apply Forall_app. split; [exact Ha | now repeat constructor].
Qed.

Lemma StronglySorted_rev (R : A -> A -> Prop) (l : list A) :
  StronglySorted R l -> StronglySorted (fun a b => R b a) (rev l).
Proof.
  induction 1 as [| a l Hs IH Ha]; simpl; [constructor |].
  apply StronglySorted_snoc; [exact IH |].
  apply Forall_rev. exact Ha.
Qed.

Lemma insertionSort_sorted (sorted rest : list A) :
  Forall inSlice sorted -> Forall inSlice rest ->
  StronglySorted (fun a b => ge b a) sorted ->
  StronglySorted ge (insertionSort less sorted rest).
Proof.
  revert sorted. induction rest as [| x rest IH]; intros sorted Hin Hrest Hs; simpl.
  - now apply (StronglySorted_rev (fun a b => ge b a)).
  - inversion Hrest as [| ? ? Hx Hrest']; subst.
    apply IH; [| exact Hrest' | now apply sink_sorted].
    apply (Permutation_Forall (sink_perm x sorted)). now constructor.
Qed.

Lemma insertionSort_perm (sorted rest : list A) :
  Permutation (rev sorted ++ rest) (insertionSort less sorted rest).
Proof.
  revert sorted. induction rest as [| x rest IH]; intro sorted; simpl.
  - rewrite app_nil_r. apply Permutation_refl.
  - eapply perm_trans; [| apply IH].
    eapply perm_trans; [apply Permutation_sym, Permutation_middle |].
    apply (Permutation_app_tail rest (l := x :: rev sorted)).
    eapply perm_trans; [| apply Permutation_rev].
    eapply perm_trans; [| apply sink_perm].
    apply perm_skip. apply Permutation_sym, Permutation_rev.
Qed.

(** The contract of [sort.Slice]: the result holds the same elements, and
    every element stands at or above the ones after it. *)
Lemma sort_Slice_sorted (data : list A) :
  Forall inSlice data -> StronglySorted ge (sort_Slice data less).
Proof. intro Hin. apply insertionSort_sorted; [constructor | exact Hin | constructor]. Qed.

Lemma sort_Slice_perm (data : list A) : Permutation data (sort_Slice data less).
Proof. apply (insertionSort_perm [] data). Qed.

End InsertionSort.

(** ** Dates: the wall clock and the monotonic clock *)

Lemma wallAfter_asym (t u : Time) : wallAfter t u = true -> wallAfter u t = false.
Proof.
  unfold wallAfter. intro Htu.
  apply orb_true_iff in Htu. apply orb_false_iff.
  rewrite andb_false_iff, andb_true_iff in *.
  rewrite !Z.gtb_ltb, !Z.ltb_lt, !Z.ltb_ge, !Z.eqb_eq, Z.eqb_neq in *. lia.
Qed.

Lemma wallAfter_negtrans (t u v : Time) :
  wallAfter t u = false -> wallAfter u v = false -> wallAfter t v = false.
Proof.
  unfold wallAfter. intros Htu Huv.
  apply orb_false_iff in Htu, Huv. apply orb_false_iff.
  rewrite !andb_false_iff in *.
  rewrite !Z.gtb_ltb, !Z.ltb_ge, !Z.eqb_neq in *. lia.
Qed.

(** A time without monotonic reading is compared by its instant. *)
Lemma After_wall_l (t u : Time) : mono t = None -> After t u = wallAfter t u.
Proof. intro Ht. unfold After. now rewrite Ht. Qed.

Lemma After_wall_r (t u : Time) : mono u = None -> After t u = wallAfter t u.
Proof. intro Hu. unfold After. rewrite Hu. now destruct (mono t). Qed.

Lemma notBefore_trans (a b c : BlogPost.t) :
  notBefore a b -> notBefore b c -> notBefore a c.
Proof. unfold notBefore. intros Hab Hbc. now apply (wallAfter_negtrans _ _ _ Hbc Hab). Qed.

(** Posts whose dates were all parsed are sorted by their instants. *)
Lemma byDateDesc_sorted_parsed (posts : list BlogPost.t) :
  Forall (fun post => mono (BlogPost.Date post) = None) posts ->
  StronglySorted notBefore (sort_Slice posts byDateDesc).
Proof.
  apply (sort_Slice_sorted BlogPost.t byDateDesc notBefore
           (fun post => mono (BlogPost.Date post) = None)).
  - exact notBefore_trans.
  - intros a b Ha _ Hless. unfold byDateDesc, notBefore in *.
    rewrite (After_wall_l _ _ Ha) in Hless. now apply wallAfter_asym.
  - intros a b Ha _ Hless. unfold byDateDesc, notBefore in *.
    now rewrite (After_wall_l _ _ Ha) in Hless.
Qed.

(** So are posts with parsed dates and clock readings, as long as the wall
    clock is not set back. *)
Lemma byDateDesc_sorted_steady `{TimePkg} (posts : list BlogPost.t) :
  wallFollowsMonotonic ->
  Forall (fun post => parsedOrClock (BlogPost.Date post)) posts ->
  StronglySorted notBefore (sort_Slice posts byDateDesc).
Proof.
  intro Hsteady.
  apply (sort_Slice_sorted BlogPost.t byDateDesc notBefore
           (fun post => parsedOrClock (BlogPost.Date post))).
  - exact notBefore_trans.
  - intros a b Ha Hb Hless. unfold byDateDesc, notBefore in *.
    destruct Ha as [Ha | [n Ha]].
    + rewrite (After_wall_l _ _ Ha) in Hless. now apply wallAfter_asym.
    + destruct Hb as [Hb | [m Hb]].
      * rewrite (After_wall_r _ _ Hb) in Hless. now apply wallAfter_asym.
      * rewrite Ha, Hb in *. specialize (Hsteady n m). now rewrite Hless in Hsteady.
  - intros a b Ha Hb Hless. unfold byDateDesc, notBefore in *.
    destruct Ha as [Ha | [n Ha]].
    + now rewrite (After_wall_l _ _ Ha) in Hless.
    + destruct Hb as [Hb | [m Hb]].
      * now rewrite (After_wall_r _ _ Hb) in Hless.
      * rewrite Ha, Hb in *. specialize (Hsteady n m). now rewrite Hless in Hsteady.
Qed.

(** ** FetchFeed *)

Lemma FetchFeed_loop_spec `{Html} `{TimePkg} (items : list Item.t)
  (channelTitle : gostring) (posts : list BlogPost.t) (w : World) :
  exists made w',
    FetchFeed_loop items channelTitle posts w = Some (posts ++ made, w')
    /\ Forall2 (postOf channelTitle) items made.
Proof.
  revert posts w. induction items as [| item items IH]; intros posts w.
  - exists [], w. rewrite app_nil_r. split; [reflexivity | constructor].
  - destruct (FetchFeed_post_spec item channelTitle w)
      as [date [summary [w1 [_ [Hs Hpost]]]]].
    destruct (IH (posts ++ [ {| BlogPost.Title := Item.Title item;
                                BlogPost.Link := Item.Link item;
                                BlogPost.Date := date;
                                BlogPost.Author := getAuthor item channelTitle;
                                BlogPost.Summary := summary |} ]) w1)
      as [made [w' [Hloop Hmade]]].
    eexists (_ :: made), w'. split.
    + cbn [FetchFeed_loop]. unfold bind at 1. rewrite Hpost, Hloop.
      now rewrite <- app_assoc.
    + constructor; [| exact Hmade]. repeat split. exact Hs.
Qed.

Lemma selected_items (feed : Feed.t) :
  (let items := Channel.Items (Feed.Channel feed) in
   let items :=
     if Nat.eqb (length items) 0 then Channel.Entries (Feed.Channel feed) else items in
   if Nat.eqb (length items) 0 then Feed.Entries feed else items)
  = firstNonEmptyLocation feed.
Proof.
  unfold firstNonEmptyLocation. cbv zeta.
  destruct (Channel.Items (Feed.Channel feed)); simpl; [| reflexivity].
  destruct (Channel.Entries (Feed.Channel feed)); reflexivity.
Qed.

(** C7: for a feed document that is fetched and decoded, the posts are
    made, one for one and in order, of the items of the first non-empty of
    the three locations: the channel's items, else the channel's entries,
    else the entries at the root; so a feed that has items only at the root
    still yields a post for each of them. *)
Theorem FetchFeed_selects_first_nonempty_location `{Html} `{TimePkg} `{Network}
  (url : gostring) (resp : Response) (body : gostring) (feed : Feed.t) (w : World) :
  http_Get url = Ok resp ->
  io_ReadAll resp = Ok body ->
  xml_Unmarshal body = Ok feed ->
  exists posts w',
    FetchFeed url w = Some (Ok posts, w')
    /\ Forall2 (postOf (Channel.Title (Feed.Channel feed)))
               (firstNonEmptyLocation feed) posts
    /\ (Channel.Items (Feed.Channel feed) = [] ->
        Channel.Entries (Feed.Channel feed) = [] ->
        Forall2 (postOf (Channel.Title (Feed.Channel feed))) (Feed.Entries feed) posts).
Proof.
  intros Hget Hread Hxml.
  destruct (FetchFeed_loop_spec (firstNonEmptyLocation feed)
              (Channel.Title (Feed.Channel feed)) [] w) as [posts [w' [Hloop Hposts]]].
  exists posts, w'. split; [| split].
  - unfold FetchFeed. rewrite Hget, Hread, Hxml, selected_items.
    unfold bind. rewrite Hloop. reflexivity.
  - exact Hposts.
  - intros Hitems Hentries. unfold firstNonEmptyLocation in Hposts.
    now rewrite Hitems, Hentries in Hposts.
Qed.

Lemma FetchFeed_selects_first_nonempty_location_witness :
  exists posts w',
    @FetchFeed entityFree goTime fixtureNetwork (lit "https://b.example/feed") world0
    = Some (Ok posts, w')
    /\ Forall2 (@postOf entityFree []) [atomEntry1; atomEntry2] posts
    /\ (Channel.Items (Feed.Channel atomFeed) = [] ->
        Channel.Entries (Feed.Channel atomFeed) = [] ->
        Forall2 (@postOf entityFree []) (Feed.Entries atomFeed) posts).
Proof.
  apply (@FetchFeed_selects_first_nonempty_location entityFree goTime fixtureNetwork
           (lit "https://b.example/feed") (lit "atom") (lit "atom") atomFeed world0);
    reflexivity.
Defined.

(** ** FetchAllFeeds *)

Lemma FetchFeed_total `{Html} `{TimePkg} `{Network} (url : gostring) (w : World) :
  exists r w', FetchFeed url w = Some (r, w').
Proof.
  unfold FetchFeed.
  destruct (http_Get url) as [resp | e]; [| eexists; eexists; reflexivity].
  destruct (io_ReadAll resp) as [body | e]; [| eexists; eexists; reflexivity].
  destruct (xml_Unmarshal body) as [feed | e]; [| eexists; eexists; reflexivity].
  rewrite selected_items.
  destruct (FetchFeed_loop_spec (firstNonEmptyLocation feed)
              (Channel.Title (Feed.Channel feed)) [] w) as [posts [w' [Hloop _]]].
  unfold bind. rewrite Hloop. eexists; eexists; reflexivity.
Qed.

Lemma FetchAllFeeds_run_total `{Html} `{TimePkg} `{Network} (order : list gostring)
  (posts : list BlogPost.t) (w : World) :
  exists collected w', FetchAllFeeds_run order posts w = Some (collected, w').
Proof.
  revert posts w. induction order as [| url order IH]; intros posts w.
  - exists posts, w. reflexivity.
  - cbn [FetchAllFeeds_run]. unfold bind at 1, FetchAllFeeds_task, bind at 1.
    destruct (FetchFeed_total url w) as [r [w1 ->]].
    destruct r as [feedPosts | e]; simpl; apply IH.
Qed.

(** Every date of a post is a parsed date or a reading of the clock. *)

Lemma parseDate_formats_wall `{TimePkg} (formats : list gostring) (dateStr : gostring)
  (t : Time) :
  parseDate_formats formats dateStr = Some t -> mono t = None.
Proof.
  induction formats as [| f formats IH]; cbn [parseDate_formats]; [discriminate |].
  destruct (time_Parse f dateStr) as [t' |] eqn:Hf; [| exact IH].
  intro E. injection E as <-. exact (time_Parse_wall _ _ _ Hf).
Qed.

Lemma parseDate_candidates_wall `{TimePkg} (dateCandidates : list gostring) (t : Time) :
  parseDate_candidates dateCandidates = Some t -> mono t = None.
Proof.
  induction dateCandidates as [| c rest IH]; cbn [parseDate_candidates]; [discriminate |].
  destruct (isEmpty c); [exact IH |].
  destruct (parseDate_formats dateFormats c) as [t' |] eqn:Hc; [| exact IH].
  intro E. injection E as <-. exact (parseDate_formats_wall _ _ _ Hc).
Qed.

Lemma parseDate_parsedOrClock `{TimePkg} (item : Item.t) (w w' : World) (date : Time) :
  parseDate item w = Some (date, w') -> parsedOrClock date.
Proof.
  unfold parseDate.
  destruct (parseDate_candidates _) as [t |] eqn:Hc; intro E; injection E as <- _.
  - left. exact (parseDate_candidates_wall _ _ Hc).
  - right. exists (reads w). reflexivity.
Qed.

Lemma FetchFeed_loop_dates `{Html} `{TimePkg} (items : list Item.t)
  (channelTitle : gostring) (posts : list BlogPost.t) (w : World) :
  exists made w',
    FetchFeed_loop items channelTitle posts w = Some (posts ++ made, w')
    /\ Forall (fun post => parsedOrClock (BlogPost.Date post)) made.
Proof.
  revert posts w. induction items as [| item items IH]; intros posts w.
  - exists [], w. rewrite app_nil_r. split; [reflexivity | constructor].
  - destruct (FetchFeed_post_spec item channelTitle w)
      as [date [summary [w1 [Hdate [_ Hpost]]]]].
    destruct (IH (posts ++ [ {| BlogPost.Title := Item.Title item;
                                BlogPost.Link := Item.Link item;
                                BlogPost.Date := date;
                                BlogPost.Author := getAuthor item channelTitle;
                                BlogPost.Summary := summary |} ]) w1)
      as [made [w' [Hloop Hmade]]].
    eexists (_ :: made), w'. split.
    + cbn [FetchFeed_loop]. unfold bind at 1. rewrite Hpost, Hloop.
      now rewrite <- app_assoc.
    + constructor; [| exact Hmade]. exact (parseDate_parsedOrClock _ _ _ _ Hdate).
Qed.

Lemma FetchAllFeeds_run_dates `{Html} `{TimePkg} `{Network} (order : list gostring)
  (posts : list BlogPost.t) (w : World) :
  Forall (fun post => parsedOrClock (BlogPost.Date post)) posts ->
  exists collected w',
    FetchAllFeeds_run order posts w = Some (collected, w')
    /\ Forall (fun post => parsedOrClock (BlogPost.Date post)) collected.
Proof.
  revert posts w. induction order as [| url order IH]; intros posts w Hposts.
  - exists posts, w. split; [reflexivity | exact Hposts].
  - cbn [FetchAllFeeds_run]. unfold bind at 1, FetchAllFeeds_task, bind at 1, FetchFeed.
    destruct (http_Get url) as [resp | e]; [| now apply IH].
    destruct (io_ReadAll resp) as [body | e]; [| now apply IH].
    destruct (xml_Unmarshal body) as [feed | e]; [| now apply IH].
    rewrite selected_items.
    destruct (FetchFeed_loop_dates (firstNonEmptyLocation feed)
                (Channel.Title (Feed.Channel feed)) [] w) as [made [w1 [Hloop Hmade]]].
    unfold bind at 1. rewrite Hloop. cbn [ret app].
    apply IH. apply Forall_app. now split.
Qed.

(** C6 (as the code has it): whatever the feeds and the order in which
    their tasks complete, [FetchAllFeeds] returns, and, provided the wall
    clock is not set back while it runs, the sequence it returns is in
    non-increasing order of date, newest first: no post is followed by one
    with a later date. *)
Theorem FetchAllFeeds_newest_first `{Html} `{TimePkg} `{Network}
  (feeds : list gostring) (w : World) :
  wallFollowsMonotonic ->
  (exists out, FetchAllFeeds feeds w out)
  /\ (forall out, FetchAllFeeds feeds w out -> StronglySorted notBefore out).
Proof.
  intro Hsteady. split.
  - destruct (FetchAllFeeds_run_total feeds [] w) as [collected [w' Hrun]].
    exists (sort_Slice collected byDateDesc), feeds, w'.
    split; [apply Permutation_refl |].
    unfold FetchAllFeeds_in, bind. rewrite Hrun. reflexivity.
  - intros out [order [w' [_ Hrun]]].
    unfold FetchAllFeeds_in, bind in Hrun.
    destruct (FetchAllFeeds_run_dates order [] w (Forall_nil _))
      as [collected [w1 [Hcollected Hdates]]].
    rewrite Hcollected in Hrun. injection Hrun as <- _.
    now apply byDateDesc_sorted_steady.
Qed.

Lemma tickingClock_steady : @wallFollowsMonotonic goTime.
Proof.
  intros n m. unfold After, wallAfter. cbn [clock goTime tickingClock mono unixSec nsec].
  destruct (Z.gtb_spec (Z.of_nat n) (Z.of_nat m)) as [Hgt | Hle];
    apply orb_false_iff; split.
  - rewrite Z.gtb_ltb. apply Z.ltb_ge. lia.
  - apply andb_false_iff. right. reflexivity.
  - rewrite Z.gtb_ltb. apply Z.ltb_ge. lia.
  - apply andb_false_iff. right. reflexivity.
Qed.

Lemma FetchAllFeeds_newest_first_witness :
  exists out,
    @FetchAllFeeds entityFree goTime undatedNetwork [lit "u"; lit "v"] world0 out
    /\ map BlogPost.Title out = [lit "t"; lit "t"; lit "Old news"; lit "Old news"]
    /\ StronglySorted notBefore out.
Proof.
  eexists. split; [| split].
  - exists [lit "u"; lit "v"]. eexists.
    split; [apply Permutation_refl | vm_compute; reflexivity].
  - reflexivity.
  - apply (proj2 (@FetchAllFeeds_newest_first entityFree goTime undatedNetwork
                    [lit "u"; lit "v"] world0 tickingClock_steady)).
    exists [lit "u"; lit "v"]. eexists.
    split; [apply Permutation_refl | vm_compute; reflexivity].
Defined.

(** C6, counterexample: a feed with two items that have no date, fetched
    while the wall clock is set back by fifty seconds between the two
    readings of [time.Now].  Both dates carry a monotonic reading, so
    [After] puts the second reading first; by the date, the post that
    comes first is the older one. *)
Lemma FetchAllFeeds_after_clock_set_back :
  exists out,
    @FetchAllFeeds entityFree setBackTime twoUndatedNetwork [lit "u"] world0 out
    /\ map BlogPost.Date out
       = [mkTime 1700000050 0 (Some 1%Z); mkTime 1700000100 0 (Some 0%Z)]
    /\ ~ StronglySorted notBefore out.
Proof.
  eexists. split; [| split].
  - exists [lit "u"]. eexists.
    split; [apply Permutation_refl | vm_compute; reflexivity].
  - reflexivity.
  - intro Hsorted. apply StronglySorted_inv in Hsorted.
    destruct Hsorted as [_ Hfirst]. inversion Hfirst as [| ? ? Hlater _]; subst.
    vm_compute in Hlater. discriminate.
Qed.

(** ** Idempotence without the white-space conditions

    When the text holds no '&' at all, the conditions of C9 on white space
    can be dropped: the first pass collapses and trims, and the second
    finds nothing left to do. *)

Lemma existsb_isAmp_false (s : gostring) :
  existsb isAmp s = false <-> forallb (fun c => negb (isAmp c)) s = true.
Proof.
  induction s as [| c s IH]; simpl; [split; reflexivity |].
  rewrite orb_false_iff, andb_true_iff, negb_true_iff, IH. reflexivity.
Qed.

Lemma forallb_wsRegex_walk (f : ascii -> bool) (inRun : bool) (s : gostring) :
  f " "%char = true -> forallb f s = true ->
  forallb f (wsRegex_walk inRun s (lit " ")) = true.
Proof.
  intro Hsp. revert inRun. induction s as [| c s IH]; intros inRun Hs; [reflexivity |].
  simpl in Hs. apply andb_true_iff in Hs. destruct Hs as [Hc Hs].
  simpl. destruct (isReSpace c); [destruct inRun |]; simpl;
    rewrite ?Hsp, ?Hc, IH; auto.
Qed.

Lemma forallb_skipn {A : Type} (f : A -> bool) (n : nat) (l : list A) :
  forallb f l = true -> forallb f (skipn n l) = true.
Proof.
  revert l. induction n as [| n IH]; intros [| a l]; simpl; auto.
  intro Hl. apply andb_true_iff in Hl. now apply IH.
Qed.

Lemma forallb_firstn {A : Type} (f : A -> bool) (n : nat) (l : list A) :
  forallb f l = true -> forallb f (firstn n l) = true.
Proof.
  revert l. induction n as [| n IH]; intros [| a l]; simpl; auto.
  intro Hl. apply andb_true_iff in Hl. destruct Hl as [-> Hl]. now apply IH.
Qed.

Lemma TrimSpace_segment (s : gostring) :
  exists k n, TrimSpace s = firstn k (skipn n s).
Proof.
  unfold TrimSpace.
  destruct (TrimRightSpace_prefix (TrimLeftSpace s)) as [k ->].
  destruct (TrimLeftSpace_suffix s) as [n ->]. eauto.
Qed.

Lemma forallb_TrimSpace (f : ascii -> bool) (s : gostring) :
  forallb f s = true -> forallb f (TrimSpace s) = true.
Proof.
  intro Hs. destruct (TrimSpace_segment s) as [k [n ->]].
  now apply forallb_firstn, forallb_skipn.
Qed.

Lemma wsRegex_walk_length (inRun : bool) (s : gostring) :
  length (wsRegex_walk inRun s (lit " ")) <= length s.
Proof.
  revert inRun. induction s as [| c s IH]; intro inRun; [reflexivity |].
  cbn [wsRegex_walk]. destruct (isReSpace c); [destruct inRun |];
    cbn [lit list_ascii_of_string app length] in *.
  - specialize (IH true). lia.
  - specialize (IH true). lia.
  - specialize (IH false). lia.
Qed.

Lemma wsRegex_walk_single_spaces (inRun : bool) (s : gostring) :
  singleSpacesFrom inRun (wsRegex_walk inRun s (lit " ")) = true.
Proof.
  revert inRun. induction s as [| c s IH]; intro inRun; [reflexivity |].
  simpl. destruct (isReSpace c) eqn:Hre; [destruct inRun |]; simpl.
  - apply IH.
  - apply IH.
  - rewrite Hre. apply IH.
Qed.

Lemma singleSpacesFrom_weaken (s : gostring) :
  singleSpacesFrom true s = true -> singleSpacesFrom false s = true.
Proof.
  destruct s as [| c s]; [reflexivity |]. simpl.
  destruct (isReSpace c); [| auto].
  rewrite andb_false_r. discriminate.
Qed.

Lemma singleSpacesFrom_skipn (afterSpace : bool) (n : nat) (s : gostring) :
  singleSpacesFrom afterSpace s = true -> singleSpacesFrom false (skipn n s) = true.
Proof.
  revert afterSpace s. induction n as [| n IH]; intros afterSpace s Hs.
  - destruct afterSpace; [now apply singleSpacesFrom_weaken | exact Hs].
  - destruct s as [| c s]; [reflexivity |]. simpl in *.
    destruct (isReSpace c).
    + apply andb_true_iff in Hs. destruct Hs as [_ Hs]. now apply (IH true).
    + now apply (IH false).
Qed.

Lemma singleSpacesFrom_firstn (afterSpace : bool) (k : nat) (s : gostring) :
  singleSpacesFrom afterSpace s = true ->
  singleSpacesFrom afterSpace (firstn k s) = true.
Proof.
  revert afterSpace s. induction k as [| k IH]; intros afterSpace s Hs; [reflexivity |].
  destruct s as [| c s]; [reflexivity |]. simpl in *.
  destruct (isReSpace c).
  - apply andb_true_iff in Hs. destruct Hs as [-> Hs]. now rewrite IH.
  - now apply IH.
Qed.

Lemma sanitize_idempotent_without_ampersand `{Html} (s : gostring) (N : Z) :
  noReserved s = true ->
  existsb isAmp s = false ->
  (Z.of_nat (length s) < N)%Z ->
  exists out, sanitize s N = Some out /\ sanitize out N = Some out.
Proof.
  intros Hres Hamp Hlen.
  set (collapsed := wsRegex_walk false s (lit " ")).
  set (out := TrimSpace collapsed).
  assert (noReserved out = true) as Hres'.
  { apply forallb_TrimSpace, forallb_wsRegex_walk; [reflexivity | exact Hres]. }
  assert (existsb isAmp out = false) as Hamp'.
  { apply existsb_isAmp_false, forallb_TrimSpace, forallb_wsRegex_walk;
      [reflexivity | now apply existsb_isAmp_false]. }
  assert (length out <= length s) as Hlen'.
  { pose proof (TrimSpace_length collapsed) as Ht. fold out in Ht.
    pose proof (wsRegex_walk_length false s) as Hc. fold collapsed in Hc. lia. }
  assert (sanitize s N = Some out) as Hfirst.
  { unfold sanitize, cleanHTML.
    rewrite (tagRegex_no_tag s [] Hres), (UnescapeString_no_amp s Hamp).
    fold collapsed.
    unfold wsRegex_ReplaceAllString. fold collapsed.
    pose proof (wsRegex_walk_length false s) as Hc. fold collapsed in Hc.
    destruct (Z.gtb_spec (Z.of_nat (length collapsed)) N) as [Hgt | _]; [lia |].
    fold out. simpl. now rewrite (stripMarkdown_id out Hres'). }
  exists out. split; [exact Hfirst |].
  apply sanitize_clean_text.
  - exact Hres'.
  - now apply UnescapeString_no_amp.
  - destruct (TrimSpace_segment collapsed) as [k [n Hseg]].
    unfold singleSpaces, out. rewrite Hseg.
    apply singleSpacesFrom_firstn, (singleSpacesFrom_skipn false).
    apply wsRegex_walk_single_spaces.
  - apply TrimSpace_trimmed.
  - apply TrimSpace_trimmed.
  - lia.
Qed.

(** ** Scenarios of the specification, evaluated *)

(** Tags are stripped and the reserved characters '*' and '!' removed. *)
Example sanitize_hello_world :
  forall H : Html,
    @sanitize H (lit "<p>Hello *world*!</p>") 200 = Some (lit "Hello world").
Proof. intro H. rewrite sanitize_no_amp by reflexivity. reflexivity. Qed.

(** A '<' with a '>' further on opens a tag, whatever stands in between;
    runs of white space become one space. *)
Example sanitize_angle_brackets :
  forall H : Html,
    @sanitize H (lit "a < b <c> d" ++ bytesOf [9; 10]%N ++ lit " e") 200
    = Some (lit "a d e").
Proof. intro H. rewrite sanitize_no_amp by reflexivity. reflexivity. Qed.

(** Text over 200 bytes is cut at 200 and gets the ellipsis; a period or a
    space at the cut is dropped first. *)
Example sanitize_truncates :
  forall H : Html,
    @sanitize H (repeat "a"%char 250) 200 = Some (repeat "a"%char 200 ++ lit "...")
    /\ @sanitize H (repeat "a"%char 199 ++ lit ". and more " ++ repeat "b"%char 50) 200
       = Some (repeat "a"%char 199 ++ lit "...").
Proof.
  intro H. split; rewrite sanitize_no_amp by reflexivity; vm_compute; reflexivity.
Qed.

(** The vertical tab is white space for [TrimSpace] and not for [\s]. *)
Example vertical_tab_is_trimmed_not_collapsed :
  TrimSpace (bytesOf [11; 97; 11; 11; 98; 194; 160]%N) = bytesOf [97; 11; 11; 98]%N
  /\ wsRegex_ReplaceAllString (bytesOf [97; 11; 11; 98]%N) (lit " ")
     = bytesOf [97; 11; 11; 98]%N.
Proof. split; reflexivity. Qed.

(** The layouts of [dateFormats] on the dates of the specification. *)
Example Parse_rfc1123_gmt :
  GoTime.Parse (lit "Mon, 02 Jan 2006 15:04:05 MST") (lit "Mon, 02 Jan 2023 10:00:00 GMT")
  = Some (mkTime 1672653600 0 None).
Proof. vm_compute. reflexivity. Qed.

Example Parse_rfc3339_offset :
  GoTime.Parse (lit "2006-01-02T15:04:05Z07:00") (lit "2023-06-01T12:30:45.5+02:00")
  = Some (mkTime 1685615445 500000000 None).
Proof. vm_compute. reflexivity. Qed.

Example Parse_day_out_of_range :
  GoTime.Parse (lit "January 2, 2006") (lit "February 29, 2024")
  = Some (mkTime 1709164800 0 None)
  /\ GoTime.Parse (lit "January 2, 2006") (lit "February 29, 2023") = None.
Proof. split; vm_compute; reflexivity. Qed.

(** An item with every date field empty gets the clock's reading, and the
    warning is logged. *)
Example parseDate_without_dates :
  forall (T : TimePkg) (w : World),
    @parseDate T anonymousItem w
    = Some (clock (reads w),
            {| reads := S (reads w);
               logs := logs w ++ [lit "warn: Could not parse any date from item t"] |}).
Proof. intros T w. reflexivity. Qed.

(** Two feeds, one of which cannot be fetched: the posts of the other are
    returned and the failure is logged with its address. *)
Example FetchAllFeeds_one_feed_down :
  exists out,
    @FetchAllFeeds_in entityFree goTime fixtureNetwork
      [lit "https://a.example/feed"; lit "https://down.example/feed"] world0
    = Some (out,
            {| reads := 0;
               logs := [lit "err fetching https://down.example/feed: fetching feed https://down.example/feed: no such host"] |})
    /\ map BlogPost.Title out = [lit "Old news"]
    /\ map BlogPost.Summary out = [lit "Hello world"]
    /\ map BlogPost.Date out = [mkTime 1672653600 0 None].
Proof. eexists. split; [vm_compute; reflexivity | repeat split]. Qed.

(** One feed with items dated 2023-01-01 and 2023-06-01: the later one
    comes first. *)
Example FetchAllFeeds_two_dates :
  exists out w',
    @FetchAllFeeds_in entityFree goTime fixtureNetwork [lit "https://b.example/feed"] world0
    = Some (out, w')
    /\ map BlogPost.Title out = [lit "June"; lit "January"].
Proof. eexists. eexists. split; [vm_compute; reflexivity | reflexivity]. Qed.

(** * Further properties of the package *)

(** ** stripMarkdown *)

(** X1: [stripMarkdown] removes every occurrence of the sixteen reserved
    bytes and nothing else: what is left is the input's other bytes, in
    their order. *)
Theorem stripMarkdown_keeps_the_other_bytes (input : gostring) :
  stripMarkdown input = filter (fun c => negb (isReserved c)) input.
Proof. exact (stripMarkdown_filter input). Qed.

(** X2: [stripMarkdown] works byte by byte: it distributes over
    concatenation, and applying it twice is applying it once. *)
Theorem stripMarkdown_distributes_and_is_idempotent (a b : gostring) :
  stripMarkdown (a ++ b) = stripMarkdown a ++ stripMarkdown b
  /\ stripMarkdown (stripMarkdown a) = stripMarkdown a.
Proof.
  rewrite !stripMarkdown_filter. split; [apply filter_app |].
  rewrite filter_filter. apply filter_ext. intro c.
  now destruct (isReserved c).
Qed.

(** ** cleanHTML: edge cases of the bound *)

Lemma cleanHTML_unfold `{Html} (input : gostring) (maxLength : Z) :
  cleanHTML input maxLength =
  if (Z.of_nat (length (normalize input)) >? maxLength)%Z then
    if (maxLength <? 0)%Z then None
    else
      match lastByte (firstn (Z.to_nat maxLength) (normalize input)) with
      | None => None
      | Some c =>
          Some (TrimSpace
                  ((if isSpaceByte c || isDot c
                    then removelast (firstn (Z.to_nat maxLength) (normalize input))
                    else firstn (Z.to_nat maxLength) (normalize input))
                   ++ lit "..."))
      end
  else Some (TrimSpace (normalize input)).
Proof. reflexivity. Qed.

(** X3: [cleanHTML] panics exactly when the bound is negative (the slice
    [cleaned[:maxLength]]), or is zero while the normalized text is not
    empty (the index [cleaned[len(cleaned)-1]] into the empty slice).  With
    a positive bound it always returns. *)
Theorem cleanHTML_panics_iff `{Html} (input : gostring) (maxLength : Z) :
  cleanHTML input maxLength = None <->
  (maxLength < 0)%Z \/ (maxLength = 0%Z /\ normalize input <> []).
Proof.
  rewrite cleanHTML_unfold.
  destruct (Z.gtb_spec (Z.of_nat (length (normalize input))) maxLength) as [Hgt | Hle].
  - destruct (Z.ltb_spec maxLength 0) as [Hneg | Hnn].
    + split; [auto | reflexivity].
    + destruct (Z.eq_dec maxLength 0) as [-> | Hpos].
      * simpl. split; [| reflexivity]. intros _. right. split; [reflexivity |].
        intro Hnil. rewrite Hnil in Hgt. simpl in Hgt. lia.
      * destruct (lastByte_some (firstn (Z.to_nat maxLength) (normalize input)))
          as [c ->].
        { intro Hnil. apply (f_equal (@length ascii)) in Hnil.
          rewrite length_firstn in Hnil. simpl in Hnil. lia. }
        split; [discriminate | intros [Hneg | [Hz _]]; lia].
  - split; [discriminate |]. intros [Hneg | [-> Hne]]; [lia |].
    destruct (normalize input); [congruence | simpl in Hle; lia].
Qed.

(** ** cleanHTML: the white space of its output *)

Lemma singleSpacesFrom_app (afterSpace : bool) (s plain : gostring) :
  singleSpacesFrom afterSpace s = true ->
  forallb (fun c => negb (isReSpace c)) plain = true ->
  singleSpacesFrom afterSpace (s ++ plain) = true.
Proof.
  intros Hs Hplain. revert afterSpace Hs.
  induction s as [| c s IH]; intros afterSpace Hs.
  - simpl. clear Hs. revert afterSpace.
    induction plain as [| p plain IHp]; intro afterSpace; [reflexivity |].
    simpl in *. apply andb_true_iff in Hplain. destruct Hplain as [Hp Hplain].
    apply negb_true_iff in Hp. rewrite Hp. now apply IHp.
  - simpl in *. destruct (isReSpace c).
    + apply andb_true_iff in Hs. destruct Hs as [-> Hs]. now rewrite IH.
    + now apply IH.
Qed.

Lemma singleSpaces_TrimSpace (s : gostring) :
  singleSpaces s = true -> singleSpaces (TrimSpace s) = true.
Proof.
  intro Hs. destruct (TrimSpace_segment s) as [k [n ->]].
  now apply singleSpacesFrom_firstn, (singleSpacesFrom_skipn false).
Qed.

Lemma singleSpaces_normalize `{Html} (input : gostring) :
  singleSpaces (normalize input) = true.
Proof. apply wsRegex_walk_single_spaces. Qed.

(** X4: whatever the input and the bound, the text [cleanHTML] returns has
    no white space left to collapse: it holds no tab, line feed, form feed
    or carriage return, and no two spaces in a row. *)
Theorem cleanHTML_leaves_single_spaces `{Html} (input out : gostring) (maxLength : Z) :
  cleanHTML input maxLength = Some out -> singleSpaces out = true.
Proof.
  rewrite cleanHTML_unfold.
  pose proof (singleSpaces_normalize input) as Hnorm.
  destruct (_ >? _)%Z.
  - destruct (_ <? _)%Z; [discriminate |].
    destruct (lastByte _) as [c |]; [| discriminate].
    intro E. injection E as <-.
    apply singleSpaces_TrimSpace, singleSpacesFrom_app; [| reflexivity].
    destruct (isSpaceByte c || isDot c).
    + rewrite removelast_firstn_len. now apply singleSpacesFrom_firstn, singleSpacesFrom_firstn.
    + now apply singleSpacesFrom_firstn.
  - intro E. injection E as <-. now apply singleSpaces_TrimSpace.
Qed.

Lemma cleanHTML_leaves_single_spaces_witness :
  singleSpaces (lit "a b c") = true.
Proof.
  apply (@cleanHTML_leaves_single_spaces entityFree
           (lit "  a " ++ bytesOf [9; 10; 13]%N ++ lit " <i>b</i>   c ") (lit "a b c") 200).
  vm_compute. reflexivity.
Defined.

(** ** cleanHTML: the ellipsis *)

Lemma HasPrefix_within (x p : gostring) :
  noDot p = true -> HasPrefix (x ++ lit "...") p = true -> length p <= length x.
Proof.
  revert x. induction p as [| c p IH]; intros x Hdot Hp; [simpl; lia |].
  simpl in Hdot. apply andb_true_iff in Hdot. destruct Hdot as [Hc Hdot].
  destruct x as [| a x].
  - exfalso. cbn [lit list_ascii_of_string app HasPrefix] in Hp.
    apply andb_true_iff in Hp. destruct Hp as [Hp _].
    apply Ascii.eqb_eq in Hp. subst c. discriminate.
  - cbn [app HasPrefix] in Hp. apply andb_true_iff in Hp. destruct Hp as [_ Hp].
    specialize (IH x Hdot Hp). simpl. lia.
Qed.

Lemma matchWidth_within (pats : list gostring) (x : gostring) :
  forallb noDot pats = true ->
  matchWidth pats (x ++ lit "...") <= length x.
Proof.
  induction pats as [| p pats IH]; intro Hdots; [simpl; lia |].
  simpl in Hdots. apply andb_true_iff in Hdots. destruct Hdots as [Hp Hdots].
  cbn [matchWidth]. destruct (HasPrefix (x ++ lit "...") p) eqn:Hpre.
  - now apply HasPrefix_within.
  - now apply IH.
Qed.

Lemma dropWhileMatch_keeps_ellipsis (fuel : nat) (pats : list gostring) (x : gostring) :
  forallb noDot pats = true ->
  exists y, dropWhileMatch fuel pats (x ++ lit "...") = y ++ lit "...".
Proof.
  intro Hdots. revert x. induction fuel as [| fuel IH]; intro x; cbn [dropWhileMatch].
  - eauto.
  - pose proof (matchWidth_within pats x Hdots) as Hw.
    destruct (matchWidth pats (x ++ lit "...")) as [| w]; [eauto |].
    rewrite skipn_app.
    replace (S w - length x) with 0 by lia. cbn [skipn]. apply IH.
Qed.

Lemma TrimSpace_keeps_ellipsis (x : gostring) :
  exists y, TrimSpace (x ++ lit "...") = y ++ lit "...".
Proof.
  unfold TrimSpace, TrimLeftSpace.
  destruct (dropWhileMatch_keeps_ellipsis (length (x ++ lit "...")) spaceRunes x)
    as [y ->]; [reflexivity |].
  exists y. unfold TrimRightSpace. rewrite rev_app_distr.
  rewrite dropWhileMatch_id; [| reflexivity].
  rewrite <- rev_app_distr. apply rev_involutive.
Qed.

Lemma HasSuffix_app (y suffix : gostring) : HasSuffix (y ++ suffix) suffix = true.
Proof.
  unfold HasSuffix. rewrite rev_app_distr.
  induction (rev suffix) as [| c r IH]; simpl.
  - now destruct (rev y).
  - now rewrite Ascii.eqb_refl.
Qed.

(** X5: when the normalized text is longer than a positive bound, so that
    [cleanHTML] cuts it, the text returned ends with the ellipsis "...",
    and so does the summary once [stripMarkdown] has gone over it. *)
Theorem truncated_text_ends_with_ellipsis `{Html} (input : gostring) (maxLength : Z) :
  (0 < maxLength)%Z ->
  (maxLength < Z.of_nat (length (normalize input)))%Z ->
  exists cleaned,
    cleanHTML input maxLength = Some cleaned
    /\ HasSuffix cleaned (lit "...") = true
    /\ HasSuffix (stripMarkdown cleaned) (lit "...") = true.
Proof.
  intros Hpos Hlong. rewrite cleanHTML_unfold.
  destruct (Z.gtb_spec (Z.of_nat (length (normalize input))) maxLength) as [_ | Hle];
    [| lia].
  destruct (Z.ltb_spec maxLength 0) as [Hneg | _]; [lia |].
  destruct (lastByte_some (firstn (Z.to_nat maxLength) (normalize input))) as [c ->].
  { intro Hnil. apply (f_equal (@length ascii)) in Hnil.
    rewrite length_firstn in Hnil. simpl in Hnil. lia. }
  cbv beta iota.
  destruct (TrimSpace_keeps_ellipsis
              (if isSpaceByte c || isDot c
               then removelast (firstn (Z.to_nat maxLength) (normalize input))
               else firstn (Z.to_nat maxLength) (normalize input))) as [y Hy].
  exists (y ++ lit "..."). split; [f_equal; exact Hy |].
  split; [apply HasSuffix_app |].
  rewrite stripMarkdown_filter, filter_app.
  change (filter (fun c0 => negb (isReserved c0)) (lit "...")) with (lit "...").
  apply HasSuffix_app.
Qed.

Lemma truncated_text_ends_with_ellipsis_witness :
  exists cleaned,
    @cleanHTML entityFree (repeat "a"%char 250) 200 = Some cleaned
    /\ HasSuffix cleaned (lit "...") = true
    /\ HasSuffix (stripMarkdown cleaned) (lit "...") = true.
Proof.
  apply (@truncated_text_ends_with_ellipsis entityFree (repeat "a"%char 250) 200).
  - lia.
  - vm_compute. reflexivity.
Defined.

(** ** The tag pattern *)

Lemma tagRegex_walk_no_gt (inTag : bool) (src : gostring) :
  existsb isGT src = false -> existsb isGT (tagRegex_walk inTag src []) = false.
Proof.
  revert inTag. induction src as [| c rest IH]; intros inTag Hno; [reflexivity |].
  simpl in Hno. apply orb_false_iff in Hno. destruct Hno as [Hc Hrest].
  cbn [tagRegex_walk]. rewrite Hc, Hrest, andb_false_r.
  destruct inTag; [now apply IH |].
  simpl. rewrite Hc. now apply IH.
Qed.

Lemma tagRegex_walk_noTagLeft (inTag : bool) (src : gostring) :
  noTagLeft (tagRegex_walk inTag src []) = true.
Proof.
  revert inTag. induction src as [| c rest IH]; intro inTag; [reflexivity |].
  cbn [tagRegex_walk]. destruct inTag.
  - destruct (isGT c); [apply (IH false) | apply (IH true)].
  - destruct (isLT c) eqn:Hlt; cbn [andb].
    + destruct (existsb isGT rest) eqn:Hgt; [apply (IH true) |].
      cbn [noTagLeft]. rewrite (tagRegex_walk_no_gt false rest Hgt), andb_false_r.
      apply (IH false).
    + cbn [noTagLeft]. rewrite Hlt. apply (IH false).
Qed.

Lemma tagRegex_walk_fixed (s repl : gostring) :
  noTagLeft s = true -> tagRegex_walk false s repl = s.
Proof.
  induction s as [| c rest IH]; [reflexivity |].
  cbn [noTagLeft tagRegex_walk]. intro Hno.
  apply andb_true_iff in Hno. destruct Hno as [Hc Hrest].
  apply negb_true_iff in Hc. rewrite Hc. now rewrite IH.
Qed.

(** X6: once [cleanHTML] has removed the matches of [tagRegex], no '<' of
    the text has a '>' after it, so the pattern matches nowhere: removing
    tags a second time changes nothing. *)
Theorem tag_removal_leaves_no_tag (input : gostring) :
  noTagLeft (tagRegex_ReplaceAllString input []) = true
  /\ tagRegex_ReplaceAllString (tagRegex_ReplaceAllString input []) []
     = tagRegex_ReplaceAllString input [].
Proof.
  unfold tagRegex_ReplaceAllString.
  pose proof (tagRegex_walk_noTagLeft false input) as Hno.
  split; [exact Hno | now apply tagRegex_walk_fixed].
Qed.

(** ** FetchFeed: what every post satisfies *)

Lemma getDescription_bounded `{Html} (item : Item.t) (summary : gostring) :
  getDescription item = Some summary ->
  length summary <= 203 /\ noReserved summary = true.
Proof.
  rewrite getDescription_spec. destruct (summarySource item) as [source |].
  - unfold sanitize. destruct (cleanHTML source 200) as [cleaned |] eqn:Hclean;
      [| discriminate].
    intro E. injection E as <-. split.
    + pose proof (stripMarkdown_length cleaned) as Hstrip.
      pose proof (cleanHTML_length _ _ _ Hclean) as Hlen.
      cbn [lit list_ascii_of_string length] in Hlen. lia.
    + unfold noReserved. apply forallb_forall. intros c HIn.
      apply stripMarkdown_unreserved in HIn. now rewrite HIn.
  - intro E. injection E as <-. split; [vm_compute; lia | reflexivity].
Qed.

Lemma FetchFeed_ok_inv `{Html} `{TimePkg} `{Network} (url : gostring) (w w' : World)
  (posts : list BlogPost.t) :
  FetchFeed url w = Some (Ok posts, w') ->
  exists resp body feed,
    http_Get url = Ok resp /\ io_ReadAll resp = Ok body /\ xml_Unmarshal body = Ok feed
    /\ FetchFeed_loop (firstNonEmptyLocation feed) (Channel.Title (Feed.Channel feed)) [] w
       = Some (posts, w').
Proof.
  unfold FetchFeed.
  destruct (http_Get url) as [resp | e] eqn:Hget; [| discriminate].
  destruct (io_ReadAll resp) as [body | e] eqn:Hread; [| discriminate].
  destruct (xml_Unmarshal body) as [feed | e] eqn:Hxml; [| discriminate].
  rewrite selected_items. unfold bind.
  destruct (FetchFeed_loop _ _ _ _) as [[made w1] |] eqn:Hloop; [| discriminate].
  intro E. injection E as <- <-. exists resp, body, feed. auto.
Qed.

(** X7: every post that [FetchFeed] returns has a summary of at most 203
    bytes which holds none of the reserved markup characters, whether it
    is sanitized text or the placeholder. *)
Theorem FetchFeed_summaries_are_bounded `{Html} `{TimePkg} `{Network} (url : gostring)
  (w w' : World) (posts : list BlogPost.t) :
  FetchFeed url w = Some (Ok posts, w') ->
  Forall (fun post => length (BlogPost.Summary post) <= 203
                      /\ noReserved (BlogPost.Summary post) = true) posts.
Proof.
  intro Hfetch. apply FetchFeed_ok_inv in Hfetch.
  destruct Hfetch as [resp [body [feed [_ [_ [_ Hloop]]]]]].
  destruct (FetchFeed_loop_spec (firstNonEmptyLocation feed)
              (Channel.Title (Feed.Channel feed)) [] w) as [made [w1 [Hspec Hmade]]].
  rewrite Hloop in Hspec. injection Hspec as -> _.
  clear Hloop. induction Hmade as [| item post items made Hpost _ IH]; constructor.
  - destruct Hpost as [_ [_ [_ Hsum]]]. now apply (getDescription_bounded item).
  - exact IH.
Qed.

Lemma FetchFeed_summaries_are_bounded_witness :
  Forall (fun post => length (BlogPost.Summary post) <= 203
                      /\ noReserved (BlogPost.Summary post) = true)
         (match @FetchFeed entityFree goTime fixtureNetwork
                  (lit "https://a.example/feed") world0 with
          | Some (Ok posts, _) => posts
          | _ => []
          end).
Proof.
  apply (@FetchFeed_summaries_are_bounded entityFree goTime fixtureNetwork
           (lit "https://a.example/feed") world0 world0).
  vm_compute. reflexivity.
Defined.

(** X8: when [FetchFeed] returns an error, exactly one of its three steps
    failed (the request, the reading of the body, the decoding), the
    message names the step, the URL and the cause, and nothing was logged
    and the clock was not read. *)
Theorem FetchFeed_error_names_step_and_url `{Html} `{TimePkg} `{Network} (url msg : gostring)
  (w w' : World) :
  FetchFeed url w = Some (Err msg, w') ->
  w' = w
  /\ ((exists cause,
         http_Get url = Err cause
         /\ msg = lit "fetching feed " ++ url ++ lit ": " ++ cause)
      \/ (exists resp cause,
            http_Get url = Ok resp /\ io_ReadAll resp = Err cause
            /\ msg = lit "reading res from " ++ url ++ lit ": " ++ cause)
      \/ (exists resp body cause,
            http_Get url = Ok resp /\ io_ReadAll resp = Ok body
            /\ xml_Unmarshal body = Err cause
            /\ msg = lit "parsing feed " ++ url ++ lit ": " ++ cause)).
Proof.
  unfold FetchFeed.
  destruct (http_Get url) as [resp | e] eqn:Hget.
  - destruct (io_ReadAll resp) as [body | e] eqn:Hread.
    + destruct (xml_Unmarshal body) as [feed | e] eqn:Hxml.
      * rewrite selected_items. unfold bind.
        destruct (FetchFeed_loop _ _ _ _) as [[made w1] |]; discriminate.
      * intro E. injection E as <- <-. split; [reflexivity |].
        right. right. exists resp, body, e. auto.
    + intro E. injection E as <- <-. split; [reflexivity |].
      right. left. exists resp, e. auto.
  - intro E. injection E as <- <-. split; [reflexivity |]. left. exists e. auto.
Qed.

Lemma FetchFeed_error_names_step_and_url_witness :
  world0 = world0
  /\ ((exists cause,
         @http_Get fixtureNetwork (lit "https://down.example/feed") = Err cause
         /\ fetchError (lit "https://down.example/feed") (lit "no such host")
            = lit "fetching feed " ++ lit "https://down.example/feed" ++ lit ": " ++ cause)
      \/ (exists resp cause,
            @http_Get fixtureNetwork (lit "https://down.example/feed") = Ok resp
            /\ @io_ReadAll fixtureNetwork resp = Err cause
            /\ fetchError (lit "https://down.example/feed") (lit "no such host")
               = lit "reading res from " ++ lit "https://down.example/feed"
                 ++ lit ": " ++ cause)
      \/ (exists resp body cause,
            @http_Get fixtureNetwork (lit "https://down.example/feed") = Ok resp
            /\ @io_ReadAll fixtureNetwork resp = Ok body
            /\ @xml_Unmarshal fixtureNetwork body = Err cause
            /\ fetchError (lit "https://down.example/feed") (lit "no such host")
               = lit "parsing feed " ++ lit "https://down.example/feed"
                 ++ lit ": " ++ cause)).
Proof.
  apply (@FetchFeed_error_names_step_and_url entityFree goTime fixtureNetwork
           (lit "https://down.example/feed")
           (fetchError (lit "https://down.example/feed") (lit "no such host"))
           world0 world0).
  vm_compute. reflexivity.
Defined.

(** ** FetchFeed: the clock and the log *)

Lemma parseDate_effects `{TimePkg} (item : Item.t) (w : World) :
  parseDate item w =
  match parseDate_candidates (dateCandidatesOf item) with
  | Some t => Some (t, w)
  | None =>
      Some (clock (reads w),
            {| reads := S (reads w); logs := logs w ++ [warnNoDate item] |})
  end.
Proof.
  unfold parseDate, dateCandidatesOf.
  destruct (parseDate_candidates _); reflexivity.
Qed.

Lemma FetchFeed_loop_effects `{Html} `{TimePkg} (items : list Item.t)
  (channelTitle : gostring) (posts : list BlogPost.t) (w : World) :
  exists made w',
    FetchFeed_loop items channelTitle posts w = Some (posts ++ made, w')
    /\ reads w' = reads w + length (filter hasNoDate items)
    /\ logs w' = logs w ++ map warnNoDate (filter hasNoDate items)
    /\ Forall2 dateOf items made.
Proof.
  revert posts w. induction items as [| item items IH]; intros posts w.
  - exists [], w. rewrite !app_nil_r. simpl. repeat split; [lia | constructor].
  - destruct (getDescription_total item) as [summary Hs].
    cbn [FetchFeed_loop filter]. unfold bind at 1, FetchFeed_post, bind at 1.
    rewrite parseDate_effects.
    destruct (parseDate_candidates (dateCandidatesOf item)) as [t |] eqn:Hdate.
    + assert (hasNoDate item = false) as -> by (unfold hasNoDate; now rewrite Hdate).
      unfold bind at 1. rewrite Hs. cbn [liftOption ret].
      destruct (IH (posts ++ [ {| BlogPost.Title := Item.Title item;
                                  BlogPost.Link := Item.Link item;
                                  BlogPost.Date := t;
                                  BlogPost.Author := getAuthor item channelTitle;
                                  BlogPost.Summary := summary |} ]) w)
        as [made [w' [Hloop [Hreads [Hlogs Hdates]]]]].
      eexists (_ :: made), w'. rewrite Hloop, <- app_assoc.
      repeat split; try assumption.
      constructor; [| exact Hdates]. unfold dateOf. now rewrite Hdate.
    + assert (hasNoDate item = true) as -> by (unfold hasNoDate; now rewrite Hdate).
      unfold bind at 1. rewrite Hs. cbn [liftOption ret].
      destruct (IH (posts ++ [ {| BlogPost.Title := Item.Title item;
                                  BlogPost.Link := Item.Link item;
                                  BlogPost.Date := clock (reads w);
                                  BlogPost.Author := getAuthor item channelTitle;
                                  BlogPost.Summary := summary |} ])
                   {| reads := S (reads w); logs := logs w ++ [warnNoDate item] |})
        as [made [w' [Hloop [Hreads [Hlogs Hdates]]]]].
      eexists (_ :: made), w'. rewrite Hloop, <- app_assoc.
      cbn [reads logs] in Hreads, Hlogs.
      repeat split.
      * cbn [length]. lia.
      * cbn [map]. rewrite Hlogs, <- app_assoc. reflexivity.
      * constructor; [| exact Hdates]. unfold dateOf. rewrite Hdate.
        exists (reads w). reflexivity.
Qed.

(** X9: on a feed that is fetched and decoded, [FetchFeed] logs one
    warning for each selected item none of whose date fields parses, in
    document order and naming the item's title, and reads the clock once
    for each of them; it logs nothing else.  The date of a post is the
    parse of its item's date fields when there is one, else a clock
    reading. *)
Theorem FetchFeed_warns_once_per_undated_item `{Html} `{TimePkg} `{Network}
  (url : gostring) (resp : Response) (body : gostring) (feed : Feed.t) (w : World) :
  http_Get url = Ok resp ->
  io_ReadAll resp = Ok body ->
  xml_Unmarshal body = Ok feed ->
  exists posts w',
    FetchFeed url w = Some (Ok posts, w')
    /\ reads w' = reads w + length (filter hasNoDate (firstNonEmptyLocation feed))
    /\ logs w' = logs w ++ map warnNoDate (filter hasNoDate (firstNonEmptyLocation feed))
    /\ Forall2 dateOf (firstNonEmptyLocation feed) posts.
Proof.
  intros Hget Hread Hxml.
  destruct (FetchFeed_loop_effects (firstNonEmptyLocation feed)
              (Channel.Title (Feed.Channel feed)) [] w)
    as [posts [w' [Hloop Heffects]]].
  exists posts, w'. split; [| exact Heffects].
  unfold FetchFeed. rewrite Hget, Hread, Hxml, selected_items.
  unfold bind. rewrite Hloop. reflexivity.
Qed.

Lemma FetchFeed_warns_once_per_undated_item_witness :
  exists posts w',
    @FetchFeed entityFree goTime undatedNetwork (lit "u") world0 = Some (Ok posts, w')
    /\ reads w' = reads world0
                  + length (filter (@hasNoDate goTime) (firstNonEmptyLocation undatedFeed))
    /\ logs w' = logs world0
                 ++ map warnNoDate
                      (filter (@hasNoDate goTime) (firstNonEmptyLocation undatedFeed))
    /\ Forall2 (@dateOf goTime) (firstNonEmptyLocation undatedFeed) posts.
Proof.
  apply (@FetchFeed_warns_once_per_undated_item entityFree goTime undatedNetwork
           (lit "u") (lit "u") (lit "u") undatedFeed world0); reflexivity.
Defined.

(** X10: on a feed whose channel has a title, every post [FetchFeed]
    returns has a non-empty author, whatever the items hold. *)
Theorem FetchFeed_authors_under_titled_channel `{Html} `{TimePkg} `{Network}
  (url : gostring) (resp : Response) (body : gostring) (feed : Feed.t) (w : World) :
  http_Get url = Ok resp ->
  io_ReadAll resp = Ok body ->
  xml_Unmarshal body = Ok feed ->
  Channel.Title (Feed.Channel feed) <> [] ->
  exists posts w',
    FetchFeed url w = Some (Ok posts, w')
    /\ Forall (fun post => BlogPost.Author post <> []) posts.
Proof.
  intros Hget Hread Hxml Htitle.
  destruct (FetchFeed_loop_spec (firstNonEmptyLocation feed)
              (Channel.Title (Feed.Channel feed)) [] w) as [posts [w' [Hloop Hposts]]].
  exists posts, w'. split.
  - unfold FetchFeed. rewrite Hget, Hread, Hxml, selected_items.
    unfold bind. rewrite Hloop. reflexivity.
  - clear Hloop. induction Hposts as [| item post items posts Hpost _ IH];
      constructor; [| exact IH].
    destruct Hpost as [_ [_ [Hauthor _]]]. rewrite Hauthor.
    apply getAuthor_nonempty. auto.
Qed.

Lemma FetchFeed_authors_under_titled_channel_witness :
  exists posts w',
    @FetchFeed entityFree goTime undatedNetwork (lit "u") world0 = Some (Ok posts, w')
    /\ Forall (fun post => BlogPost.Author post <> []) posts.
Proof.
  apply (@FetchFeed_authors_under_titled_channel entityFree goTime undatedNetwork
           (lit "u") (lit "u") (lit "u") undatedFeed world0);
    try reflexivity.
  discriminate.
Defined.

(** ** FetchAllFeeds: what is collected *)

Lemma FetchAllFeeds_run_batches `{Html} `{TimePkg} `{Network} (order : list gostring)
  (posts : list BlogPost.t) (w : World) :
  exists w',
    FetchAllFeeds_run order posts w
    = Some (posts ++ concat (fetchedBatches order w), w').
Proof.
  revert posts w. induction order as [| url order IH]; intros posts w.
  - exists w. simpl. now rewrite app_nil_r.
  - cbn [FetchAllFeeds_run fetchedBatches].
    unfold bind at 1, FetchAllFeeds_task, bind at 1.
    destruct (FetchFeed_total url w) as [r [w1 ->]].
    destruct r as [feedPosts | err].
    + cbn [ret]. destruct (IH (posts ++ feedPosts) w1) as [w' ->].
      exists w'. cbn [concat]. now rewrite app_assoc.
    + unfold bind, log_Printf, ret. apply IH.
Qed.

(** X11: the aggregator loses no post and invents none: what
    [FetchAllFeeds] returns is a rearrangement of the batches its tasks
    obtained from [FetchFeed], each post as many times as it was fetched. *)
Theorem FetchAllFeeds_returns_the_fetched_posts `{Html} `{TimePkg} `{Network}
  (order : list gostring) (w : World) :
  exists out w',
    FetchAllFeeds_in order w = Some (out, w')
    /\ Permutation (concat (fetchedBatches order w)) out.
Proof.
  destruct (FetchAllFeeds_run_batches order [] w) as [w' Hrun].
  exists (sort_Slice (concat (fetchedBatches order w)) byDateDesc), w'.
  split; [| apply sort_Slice_perm].
  unfold FetchAllFeeds_in, bind. rewrite Hrun. reflexivity.
Qed.

(** X12: when the request fails for every URL, [FetchAllFeeds] returns the
    empty sequence, does not read the clock, and logs one line per URL, in
    the order of completion, with the URL and the cause. *)
Theorem FetchAllFeeds_all_feeds_down `{Html} `{TimePkg} `{Network}
  (order : list gostring) (cause : gostring -> gostring) (w : World) :
  (forall url, In url order -> http_Get url = Err (cause url)) ->
  FetchAllFeeds_in order w
  = Some ([], {| reads := reads w;
                 logs := logs w ++ map (fun url => fetchErrorLine url (cause url)) order |}).
Proof.
  intro Hdown.
  assert (forall posts w0,
             FetchAllFeeds_run order posts w0
             = Some (posts,
                     {| reads := reads w0;
                        logs := logs w0
                                ++ map (fun url => fetchErrorLine url (cause url)) order |}))
    as Hrun.
  { induction order as [| url order IH]; intros posts w0.
    - simpl. rewrite app_nil_r. now destruct w0.
    - cbn [FetchAllFeeds_run]. unfold bind at 1, FetchAllFeeds_task, bind at 1, FetchFeed.
      rewrite (Hdown url) by now left.
      unfold ret, bind, log_Printf. rewrite IH by (intros u Hu; apply Hdown; now right).
      cbn [reads logs map]. now rewrite <- app_assoc. }
  unfold FetchAllFeeds_in, bind. rewrite Hrun. reflexivity.
Qed.

Lemma FetchAllFeeds_all_feeds_down_witness :
  @FetchAllFeeds_in entityFree goTime fixtureNetwork
    [lit "https://x.example/"; lit "https://y.example/"] world0
  = Some ([], {| reads := reads world0;
                 logs := logs world0
                         ++ map (fun url => fetchErrorLine url (lit "no such host"))
                              [lit "https://x.example/"; lit "https://y.example/"] |}).
Proof.
  apply (@FetchAllFeeds_all_feeds_down entityFree goTime fixtureNetwork
           [lit "https://x.example/"; lit "https://y.example/"]
           (fun _ => lit "no such host") world0).
  intros url [<- | [<- | []]]; reflexivity.
Defined.

(** ** FetchAllFeeds: a failing feed and its siblings

    What a task computes depends on the world through the clock only, not
    through the log: from two worlds with the same count of clock
    readings it returns the same value and leaves that count equal. *)

Lemma logBlind_ret {A : Type} (a : A) : logBlind (ret a).
Proof. intros w1 w2 Hr. simpl. auto. Qed.

Lemma logBlind_bind {A B : Type} (m : M A) (k : A -> M B) :
  logBlind m -> (forall a, logBlind (k a)) -> logBlind (bind m k).
Proof.
  intros Hm Hk w1 w2 Hr. unfold bind. specialize (Hm w1 w2 Hr).
  destruct (m w1) as [[a1 w1'] |], (m w2) as [[a2 w2'] |]; try contradiction.
  - destruct Hm as [<- Hr']. now apply Hk.
  - exact I.
Qed.

Lemma logBlind_log (line : gostring) : logBlind (log_Printf line).
Proof. intros w1 w2 Hr. simpl. auto. Qed.

Lemma logBlind_Now `{TimePkg} : logBlind time_Now.
Proof. intros w1 w2 Hr. simpl. rewrite Hr. auto. Qed.

Lemma logBlind_parseDate `{TimePkg} (item : Item.t) : logBlind (parseDate item).
Proof.
  unfold parseDate. destruct (parseDate_candidates _).
  - apply logBlind_ret.
  - apply logBlind_bind; [apply logBlind_log | intros _; apply logBlind_Now].
Qed.

Lemma logBlind_post `{Html} `{TimePkg} (item : Item.t) (channelTitle : gostring) :
  logBlind (FetchFeed_post item channelTitle).
Proof.
  unfold FetchFeed_post.
  apply logBlind_bind; [apply logBlind_parseDate |]. intro date.
  apply logBlind_bind.
  - destruct (getDescription item); [apply logBlind_ret |].
    intros w1 w2 _. exact I.
  - intro summary. apply logBlind_ret.
Qed.

Lemma logBlind_loop `{Html} `{TimePkg} (items : list Item.t) (channelTitle : gostring)
  (posts : list BlogPost.t) : logBlind (FetchFeed_loop items channelTitle posts).
Proof.
  revert posts. induction items as [| item items IH]; intro posts.
  - apply logBlind_ret.
  - cbn [FetchFeed_loop]. apply logBlind_bind; [apply logBlind_post |].
    intro post. apply IH.
Qed.

Lemma logBlind_FetchFeed `{Html} `{TimePkg} `{Network} (url : gostring) :
  logBlind (FetchFeed url).
Proof.
  unfold FetchFeed.
  destruct (http_Get url) as [resp | e]; [| apply logBlind_ret].
  destruct (io_ReadAll resp) as [body | e]; [| apply logBlind_ret].
  destruct (xml_Unmarshal body) as [feed | e]; [| apply logBlind_ret].
  apply logBlind_bind; [apply logBlind_loop | intro posts; apply logBlind_ret].
Qed.

Lemma logBlind_run `{Html} `{TimePkg} `{Network} (order : list gostring)
  (posts : list BlogPost.t) : logBlind (FetchAllFeeds_run order posts).
Proof.
  revert posts. induction order as [| url order IH]; intro posts.
  - apply logBlind_ret.
  - cbn [FetchAllFeeds_run]. apply logBlind_bind; [| intro posts'; apply IH].
    unfold FetchAllFeeds_task. apply logBlind_bind; [apply logBlind_FetchFeed |].
    intros [feedPosts | err]; [apply logBlind_ret |].
    apply logBlind_bind; [apply logBlind_log | intros _; apply logBlind_ret].
Qed.

Lemma FetchAllFeeds_run_app `{Html} `{TimePkg} `{Network} (before after : list gostring)
  (posts : list BlogPost.t) (w : World) :
  FetchAllFeeds_run (before ++ after) posts w
  = bind (FetchAllFeeds_run before posts) (fun posts' => FetchAllFeeds_run after posts') w.
Proof.
  revert posts w. induction before as [| url before IH]; intros posts w.
  - reflexivity.
  - cbn [app FetchAllFeeds_run]. unfold bind.
    destruct (FetchAllFeeds_task url posts w) as [[posts' w1] |]; [| reflexivity].
    rewrite IH. reflexivity.
Qed.

(** X13: a feed whose request fails changes nothing for the others:
    with or without its URL in the list, in any position, [FetchAllFeeds]
    returns the same posts in the same order and reads the clock as many
    times; the two runs differ by the log alone. *)
Theorem failing_feed_leaves_the_others `{Html} `{TimePkg} `{Network}
  (url cause : gostring) (before after : list gostring) (w : World) :
  http_Get url = Err cause ->
  exists out w1 w2,
    FetchAllFeeds_in (before ++ url :: after) w = Some (out, w1)
    /\ FetchAllFeeds_in (before ++ after) w = Some (out, w2)
    /\ reads w1 = reads w2.
Proof.
  intro Hdown. unfold FetchAllFeeds_in, bind.
  rewrite !FetchAllFeeds_run_app. unfold bind.
  destruct (FetchAllFeeds_run_total before [] w) as [collected [wb ->]].
  cbn [FetchAllFeeds_run]. unfold bind at 1, FetchAllFeeds_task, bind at 1, FetchFeed.
  rewrite Hdown. unfold ret at 1, bind at 1, log_Printf, ret at 1.
  pose proof (logBlind_run after collected
                {| reads := reads wb;
                   logs := logs wb ++ [lit "err fetching " ++ url ++ lit ": "
                                       ++ (lit "fetching feed " ++ url ++ lit ": " ++ cause)] |}
                wb eq_refl) as Hblind.
  destruct (FetchAllFeeds_run after collected _) as [[out1 w1] |] eqn:Hrun1;
    destruct (FetchAllFeeds_run after collected wb) as [[out2 w2] |] eqn:Hrun2;
    try contradiction.
  - destruct Hblind as [<- Hreads].
    exists (sort_Slice out1 byDateDesc), w1, w2. repeat split. exact Hreads.
  - destruct (FetchAllFeeds_run_total after collected wb) as [c [w' Hc]]. congruence.
Qed.

Lemma failing_feed_leaves_the_others_witness :
  exists out w1 w2,
    @FetchAllFeeds_in entityFree goTime fixtureNetwork
      ([lit "https://a.example/feed"]
       ++ lit "https://down.example/feed" :: [lit "https://b.example/feed"]) world0
    = Some (out, w1)
    /\ @FetchAllFeeds_in entityFree goTime fixtureNetwork
         ([lit "https://a.example/feed"] ++ [lit "https://b.example/feed"]) world0
       = Some (out, w2)
    /\ reads w1 = reads w2.
Proof.
  apply (@failing_feed_leaves_the_others entityFree goTime fixtureNetwork
           (lit "https://down.example/feed") (lit "no such host")).
  reflexivity.
Defined.

(** ** FetchAllFeeds: when the order of completion does not matter *)

Lemma FetchFeed_loop_dated `{Html} `{TimePkg} (items : list Item.t)
  (channelTitle : gostring) :
  Forall (fun item => hasNoDate item = false) items ->
  exists made,
    Forall (fun post => mono (BlogPost.Date post) = None) made
    /\ forall posts w,
         FetchFeed_loop items channelTitle posts w = Some (posts ++ made, w).
Proof.
  induction 1 as [| item items Hitem _ [made [Hmade IH]]].
  - exists []. split; [constructor |]. intros posts w. simpl. now rewrite app_nil_r.
  - destruct (getDescription_total item) as [summary Hs].
    unfold hasNoDate in Hitem.
    destruct (parseDate_candidates (dateCandidatesOf item)) as [t |] eqn:Hdate;
      [| discriminate].
    exists ({| BlogPost.Title := Item.Title item;
               BlogPost.Link := Item.Link item;
               BlogPost.Date := t;
               BlogPost.Author := getAuthor item channelTitle;
               BlogPost.Summary := summary |} :: made). split.
    + constructor; [| exact Hmade].
      exact (parseDate_candidates_wall _ _ Hdate).
    + intros posts w.
      cbn [FetchFeed_loop]. unfold bind at 1, FetchFeed_post, bind at 1.
      rewrite parseDate_effects, Hdate. unfold bind at 1. rewrite Hs.
      cbn [liftOption ret]. rewrite IH, <- app_assoc. reflexivity.
Qed.

Lemma FetchAllFeeds_task_dated `{Html} `{TimePkg} `{Network} (url : gostring) :
  allDated url ->
  Forall (fun post => mono (BlogPost.Date post) = None) (batchOf url)
  /\ forall posts w, exists w',
       FetchAllFeeds_task url posts w = Some (posts ++ batchOf url, w').
Proof.
  intro Hdated.
  assert (exists batch,
             Forall (fun post => mono (BlogPost.Date post) = None) batch
             /\ forall posts w, exists w',
                  FetchAllFeeds_task url posts w = Some (posts ++ batch, w'))
    as [batch [Hparsed Hbatch]].
  { unfold FetchAllFeeds_task, FetchFeed.
    destruct (http_Get url) as [resp | e] eqn:Hget.
    - destruct (io_ReadAll resp) as [body | e] eqn:Hread.
      + destruct (xml_Unmarshal body) as [feed | e] eqn:Hxml.
        * destruct (FetchFeed_loop_dated (firstNonEmptyLocation feed)
                      (Channel.Title (Feed.Channel feed))
                      (Hdated resp body feed Hget Hread Hxml)) as [made [Hmade Hloop]].
          exists made. split; [exact Hmade |]. intros posts w. exists w.
          rewrite selected_items. unfold bind. rewrite Hloop. reflexivity.
        * exists []. split; [constructor |].
          intros posts w. eexists. rewrite app_nil_r. reflexivity.
      + exists []. split; [constructor |].
        intros posts w. eexists. rewrite app_nil_r. reflexivity.
    - exists []. split; [constructor |].
      intros posts w. eexists. rewrite app_nil_r. reflexivity. }
  assert (batchOf url = batch) as ->; [| now split].
  unfold batchOf. destruct (Hbatch [] {| reads := 0; logs := [] |}) as [w' ->].
  reflexivity.
Qed.

Lemma FetchAllFeeds_run_dated `{Html} `{TimePkg} `{Network} (order : list gostring) :
  Forall allDated order ->
  Forall (fun post => mono (BlogPost.Date post) = None) (concat (map batchOf order))
  /\ forall posts w, exists w',
       FetchAllFeeds_run order posts w = Some (posts ++ concat (map batchOf order), w').
Proof.
  induction 1 as [| url order Hurl _ [Hparsed IH]].
  - split; [constructor |]. intros posts w. exists w. simpl. now rewrite app_nil_r.
  - destruct (FetchAllFeeds_task_dated url Hurl) as [Hbatch Htask].
    split; [cbn [map concat]; apply Forall_app; now split |].
    intros posts w. cbn [FetchAllFeeds_run map concat]. unfold bind.
    destruct (Htask posts w) as [w1 ->].
    destruct (IH (posts ++ batchOf url) w1) as [w' ->].
    exists w'. now rewrite app_assoc.
Qed.

Lemma Permutation_concat {A : Type} (l1 l2 : list (list A)) :
  Permutation l1 l2 -> Permutation (concat l1) (concat l2).
Proof.
  induction 1 as [| b l1 l2 _ IH | a b l | l1 l2 l3 _ IH12 _ IH23]; cbn [concat].
  - constructor.
  - now apply Permutation_app_head.
  - rewrite !app_assoc. apply Permutation_app_tail, Permutation_app_comm.
  - now apply perm_trans with (concat l2).
Qed.

(** Two parsed dates neither of which is after the other are the same. *)
Lemma wallAfter_neither (t u : Time) :
  mono t = None -> mono u = None ->
  wallAfter t u = false -> wallAfter u t = false -> t = u.
Proof.
  destruct t as [ts tn tm], u as [us un um]. unfold wallAfter. cbn [unixSec nsec mono].
  intros -> -> Htu Hut. apply orb_false_iff in Htu, Hut.
  rewrite !andb_false_iff in *.
  rewrite !Z.gtb_ltb, !Z.ltb_ge, !Z.eqb_neq in *.
  assert (ts = us) by lia. assert (tn = un) by lia. now subst.
Qed.

Lemma sorted_perm_unique (out1 out2 : list BlogPost.t) :
  Forall (fun post => mono (BlogPost.Date post) = None) out1 ->
  StronglySorted notBefore out1 ->
  StronglySorted notBefore out2 ->
  Permutation out1 out2 ->
  NoDup (map BlogPost.Date out1) ->
  out1 = out2.
Proof.
  intros Hparsed Hs1. revert out2 Hparsed.
  induction Hs1 as [| a l1 Hs1 IH Ha]; intros out2 Hparsed Hs2 Hperm Hnodup.
  - now apply Permutation_nil in Hperm.
  - destruct out2 as [| b l2]; [now apply Permutation_sym, Permutation_nil in Hperm |].
    apply StronglySorted_inv in Hs2. destruct Hs2 as [Hs2 Hb].
    inversion Hnodup as [| ? ? Hnotin Hnodup']; subst.
    inversion Hparsed as [| ? ? Hpa Hparsed']; subst.
    assert (a = b) as <-.
    { assert (In b (a :: l1)) as [Hab | Hin1];
        [apply (Permutation_in b (Permutation_sym Hperm)); now left | exact Hab |].
      assert (In a (b :: l2)) as [Hba | Hin2];
        [apply (Permutation_in a Hperm); now left | now symmetry |].
      exfalso. apply Hnotin.
      assert (mono (BlogPost.Date b) = None) as Hpb.
      { rewrite Forall_forall in Hparsed'. now apply Hparsed'. }
      rewrite Forall_forall in Ha, Hb.
      specialize (Ha b Hin1). specialize (Hb a Hin2). unfold notBefore in Ha, Hb.
      rewrite (wallAfter_neither _ _ Hpa Hpb Hb Ha). now apply in_map. }
    f_equal.
    apply IH; [exact Hparsed' | exact Hs2 | now apply Permutation_cons_inv in Hperm
              | exact Hnodup'].
Qed.

(** X14: when every item of every feed has a date field that parses and
    no two posts have the same date, the sequence [FetchAllFeeds] returns
    does not depend on the order in which the tasks complete. *)
Theorem FetchAllFeeds_is_deterministic_on_dated_feeds `{Html} `{TimePkg} `{Network}
  (feeds : list gostring) (w : World) (out1 out2 : list BlogPost.t) :
  Forall allDated feeds ->
  FetchAllFeeds feeds w out1 ->
  FetchAllFeeds feeds w out2 ->
  NoDup (map BlogPost.Date out1) ->
  out1 = out2.
Proof.
  intros Hdated [order1 [w1 [Hp1 Hrun1]]] [order2 [w2 [Hp2 Hrun2]]] Hnodup.
  unfold FetchAllFeeds_in, bind in Hrun1, Hrun2.
  destruct (FetchAllFeeds_run_dated order1 (Permutation_Forall Hp1 Hdated))
    as [Hparsed1 Hrun1'].
  destruct (FetchAllFeeds_run_dated order2 (Permutation_Forall Hp2 Hdated))
    as [Hparsed2 Hrun2'].
  destruct (Hrun1' [] w) as [w1' E1]. destruct (Hrun2' [] w) as [w2' E2].
  rewrite E1 in Hrun1. rewrite E2 in Hrun2. cbn [app] in Hrun1, Hrun2.
  injection Hrun1 as <- _. injection Hrun2 as <- _.
  apply sorted_perm_unique.
  - apply (Permutation_Forall (sort_Slice_perm _ byDateDesc _) Hparsed1).
  - now apply byDateDesc_sorted_parsed.
  - now apply byDateDesc_sorted_parsed.
  - eapply perm_trans; [apply Permutation_sym, sort_Slice_perm |].
    eapply perm_trans; [| apply sort_Slice_perm].
    apply Permutation_concat, Permutation_map.
    eapply perm_trans; [apply Permutation_sym, Hp1 | exact Hp2].
  - exact Hnodup.
Qed.

Lemma fixture_feeds_allDated :
  Forall (@allDated goTime fixtureNetwork)
         [lit "https://a.example/feed"; lit "https://b.example/feed"].
Proof.
  repeat constructor; intros resp body feed Hget Hread Hxml;
    vm_compute in Hget; injection Hget as <-;
    vm_compute in Hread; injection Hread as <-;
    vm_compute in Hxml; injection Hxml as <-;
    repeat constructor.
Qed.

Lemma FetchAllFeeds_is_deterministic_on_dated_feeds_witness :
  match @FetchAllFeeds_in entityFree goTime fixtureNetwork
          [lit "https://a.example/feed"; lit "https://b.example/feed"] world0 with
  | Some (out, _) => out
  | None => []
  end
  = match @FetchAllFeeds_in entityFree goTime fixtureNetwork
            [lit "https://b.example/feed"; lit "https://a.example/feed"] world0 with
    | Some (out, _) => out
    | None => []
    end.
Proof.
  apply (@FetchAllFeeds_is_deterministic_on_dated_feeds entityFree goTime fixtureNetwork
           [lit "https://a.example/feed"; lit "https://b.example/feed"] world0).
  - exact fixture_feeds_allDated.
  - exists [lit "https://a.example/feed"; lit "https://b.example/feed"]. eexists.
    split; [apply Permutation_refl | vm_compute; reflexivity].
  - exists [lit "https://b.example/feed"; lit "https://a.example/feed"]. eexists.
    split; [apply perm_swap | vm_compute; reflexivity].
  - vm_compute. repeat constructor; cbn; intuition discriminate.
Defined.

(** ** parseDate never invents a date *)

Lemma parseDate_formats_sound `{TimePkg} (formats : list gostring) (dateStr : gostring)
  (t : Time) :
  parseDate_formats formats dateStr = Some t ->
  exists format, In format formats /\ time_Parse format dateStr = Some t.
Proof.
  induction formats as [| f formats IH]; cbn [parseDate_formats]; [discriminate |].
  destruct (time_Parse f dateStr) as [t' |] eqn:Hf.
  - intro E. injection E as ->. exists f. split; [now left | exact Hf].
  - intro Hrest. destruct (IH Hrest) as [format [HIn Hok]].
    exists format. split; [now right | exact Hok].
Qed.

Lemma parseDate_candidates_sound `{TimePkg} (dateCandidates : list gostring) (t : Time) :
  parseDate_candidates dateCandidates = Some t ->
  exists dateStr format,
    In dateStr dateCandidates /\ dateStr <> []
    /\ In format dateFormats /\ time_Parse format dateStr = Some t.
Proof.
  induction dateCandidates as [| c rest IH]; cbn [parseDate_candidates]; [discriminate |].
  destruct (isEmpty c) eqn:Hempty.
  - intro Hrest. destruct (IH Hrest) as [d [f [HIn Hd]]].
    exists d, f. split; [now right | exact Hd].
  - destruct (parseDate_formats dateFormats c) as [t' |] eqn:Hc.
    + intro E. injection E as ->.
      destruct (parseDate_formats_sound dateFormats c t Hc) as [f [HIn Hok]].
      exists c, f. apply isEmpty_false in Hempty. repeat split; try assumption. now left.
    + intro Hrest. destruct (IH Hrest) as [d [f [HIn Hd]]].
      exists d, f. split; [now right | exact Hd].
Qed.

(** X15: the date [parseDate] returns is never made up: either it is
    what one of the eleven layouts parses out of one of the item's four date
    fields, a non-empty one, and then the world is left as it was; or it is
    the clock's reading, and then the warning with the item's title has
    been logged. *)
Theorem parseDate_returns_a_parsed_field_or_the_clock `{TimePkg} (item : Item.t)
  (w w' : World) (t : Time) :
  parseDate item w = Some (t, w') ->
  (w' = w
   /\ exists dateStr format,
        In dateStr [Item.PubDate item; Item.Date item;
                    Item.Published item; Item.Updated item]
        /\ dateStr <> []
        /\ In format dateFormats
        /\ time_Parse format dateStr = Some t)
  \/ (t = clock (reads w)
      /\ w' = {| reads := S (reads w); logs := logs w ++ [warnNoDate item] |}
      /\ parseDate_candidates
           [Item.PubDate item; Item.Date item; Item.Published item; Item.Updated item]
         = None).
Proof.
  rewrite parseDate_effects. unfold dateCandidatesOf.
  destruct (parseDate_candidates _) as [t' |] eqn:Hc; intro E; injection E as <- <-.
  - left. split; [reflexivity |]. now apply parseDate_candidates_sound.
  - right. auto.
Qed.

Lemma parseDate_returns_a_parsed_field_or_the_clock_witness :
  (world0 = world0
   /\ exists dateStr format,
        In dateStr [Item.PubDate fallThroughItem; Item.Date fallThroughItem;
                    Item.Published fallThroughItem; Item.Updated fallThroughItem]
        /\ dateStr <> []
        /\ In format dateFormats
        /\ @time_Parse goTime format dateStr = Some (mkTime 1685577600 0 None))
  \/ (mkTime 1685577600 0 None = @clock goTime (reads world0)
      /\ world0 = {| reads := S (reads world0);
                     logs := logs world0 ++ [warnNoDate fallThroughItem] |}
      /\ @parseDate_candidates goTime
           [Item.PubDate fallThroughItem; Item.Date fallThroughItem;
            Item.Published fallThroughItem; Item.Updated fallThroughItem]
         = None).
Proof.
  apply (@parseDate_returns_a_parsed_field_or_the_clock goTime fallThroughItem
           world0 world0 (mkTime 1685577600 0 None)).
  vm_compute. reflexivity.
Defined.

(** ** Angle brackets that are no tag *)

(** X16: a '<' counts as the start of a tag only when a '>' follows
    somewhere: on text that holds no '>' at all the tag removal of
    [cleanHTML] changes nothing, every '<' included. *)
Theorem unclosed_angle_bracket_is_kept (input repl : gostring) :
  existsb isGT input = false ->
  tagRegex_ReplaceAllString input repl = input.
Proof.
  unfold tagRegex_ReplaceAllString.
  induction input as [| c rest IH]; [reflexivity |].
  cbn [existsb tagRegex_walk]. intro Hno.
  apply orb_false_iff in Hno. destruct Hno as [_ Hrest].
  rewrite Hrest, andb_false_r. now rewrite IH.
Qed.

Lemma unclosed_angle_bracket_is_kept_witness :
  tagRegex_ReplaceAllString (lit "if a < b then <br") [] = lit "if a < b then <br".
Proof.
  apply (unclosed_angle_bracket_is_kept (lit "if a < b then <br") []). reflexivity.
Defined.
